(** * Verification of the rustledger playground control layer

    A shallow embedding of the JavaScript sources under [src/src]
    ([utils.js], [wasm.js], [main.js], [editor.js], [query.js]) and
    the properties of the worker bridge, the query paginator, the error
    annotations, the account colouring and the autocomplete. *)

From Stdlib Require Import Ascii String List Lia ZArith.
From stdpp Require Import base gmap sets list strings pretty.
Import ListNotations.

(** ** JavaScript string helpers

    A JavaScript string is modelled as a list of characters.  The code
    of this file only ever compares characters, so an 8-bit [ascii] code
    unit stands for a UTF-16 code unit. *)
Module JsString.

Definition chars (s : string) : list ascii := list_ascii_of_string s.

(** [text.replace(/c/g, r)] for a single-character pattern [c]. *)
Definition replace_all (c : ascii) (r : list ascii) (s : list ascii) : list ascii :=
  flat_map (fun x => if Ascii.eqb x c then r else [x]) s.

(** [s.startsWith(p)] *)
Fixpoint starts_with (p s : list ascii) : bool :=
  match p, s with
  | [], _ => true
  | a :: p', b :: s' => Ascii.eqb a b && starts_with p' s'
  | _ :: _, [] => false
  end.

(** [s.includes(p)] *)
Fixpoint includes (s p : list ascii) : bool :=
  starts_with p s ||
  match s with
  | [] => false
  | _ :: s' => includes s' p
  end.

(** [String.prototype.toLowerCase] on the ASCII range. *)
Definition lower_char (c : ascii) : ascii :=
  let n := nat_of_ascii c in
  if (65 <=? n) && (n <=? 90) then ascii_of_nat (n + 32) else c.

Definition toLowerCase (s : list ascii) : list ascii := map lower_char s.

(** [s.split(c)] for a single-character separator [c]: the pieces
    between the separators, a list holding one empty piece for the empty string. *)
Fixpoint split (c : ascii) (s : list ascii) : list (list ascii) :=
  match s with
  | [] => [[]]
  | x :: s' =>
      if Ascii.eqb x c then [] :: split c s'
      else match split c s' with
           | [] => [[x]]
           | p :: ps => (x :: p) :: ps
           end
  end.

End JsString.

(** ** [escapeHtml] (utils.js) *)
Module Utils.
Import JsString.

Definition amp : ascii := "&"%char.
Definition lt : ascii := "<"%char.
Definition gt : ascii := ">"%char.
Definition dquote : ascii := ascii_of_nat 34.
Definition squote : ascii := ascii_of_nat 39.

Definition ent_amp : list ascii := chars "&amp;".
Definition ent_lt : list ascii := chars "&lt;".
Definition ent_gt : list ascii := chars "&gt;".
Definition ent_quot : list ascii := chars "&quot;".
Definition ent_039 : list ascii := chars "&#039;".

Definition entities : list (list ascii) :=
  [ent_amp; ent_lt; ent_gt; ent_quot; ent_039].

(** The chain of five global replacements, in the order of the source. *)
Definition escapeHtml (text : list ascii) : list ascii :=
  replace_all squote ent_039
    (replace_all dquote ent_quot
      (replace_all gt ent_gt
        (replace_all lt ent_lt
          (replace_all amp ent_amp text)))).

(** The effect of the five replacements on one character. *)
Definition esc (x : ascii) : list ascii :=
  if Ascii.eqb x amp then ent_amp
  else if Ascii.eqb x lt then ent_lt
  else if Ascii.eqb x gt then ent_gt
  else if Ascii.eqb x dquote then ent_quot
  else if Ascii.eqb x squote then ent_039
  else [x].

(** The characters that open or close tags and attribute values. *)
Definition specials : list ascii := [lt; gt; dquote; squote].

End Utils.

(** ** The worker transport and engine client (wasm.js) *)
Module Wasm.
Import JsString.

(** The fate of the promise returned by one [sendMessage] call. *)
Inductive promise_state (R : Type) : Type :=
| PPending
| PResolved (r : R)
| PRejected (msg : string).
Arguments PPending {R}.
Arguments PResolved {R} r.
Arguments PRejected {R} msg.

Section Transport.
Variable R : Type.

(** Module-level state of wasm.js: [worker], [wasmReady], [messageId],
    the keys of [pendingRequests], and, for each request id, the promise
    that the stored [resolve]/[reject] pair settles. *)
Record wstate := mkW {
  worker : bool;
  wasmReady : bool;
  messageId : nat;
  pendingRequests : gset nat;
  promises : gmap nat (promise_state R)
}.

(** What [sendMessage] hands back: a promise rejected on the spot, or
    the id under which its [resolve]/[reject] pair was stored. *)
Inductive send_result :=
| SendRejected (msg : string)
| SendPosted (id : nat).

Definition sendMessage (st : wstate) : wstate * send_result :=
  if negb (worker st) then (st, SendRejected "Worker not initialized")
  else
    let id := messageId st in
    (mkW (worker st) (wasmReady st) (S id)
         ({[ id ]} ∪ pendingRequests st)
         (<[ id := PPending ]> (promises st)),
     SendPosted id).

(** Inbound worker messages: [{type: ready}], [{type: error}] without
    id, or a tagged [result] / [error] reply. *)
Inductive worker_msg :=
| MsgReady
| MsgBootError (err : string)
| MsgResult (id : nat) (r : R)
| MsgError (id : nat) (err : string).

Definition settle (id : nat) (p : promise_state R) (st : wstate) : wstate :=
  if decide (id ∈ pendingRequests st) then
    mkW (worker st) (wasmReady st) (messageId st)
        (pendingRequests st ∖ {[ id ]})
        (<[ id := p ]> (promises st))
  else st.

Definition handleWorkerMessage (m : worker_msg) (st : wstate) : wstate :=
  match m with
  | MsgReady => mkW (worker st) true (messageId st) (pendingRequests st) (promises st)
  | MsgBootError _ => mkW (worker st) false (messageId st) (pendingRequests st) (promises st)
  | MsgResult id r => settle id (PResolved r) st
  | MsgError id e => settle id (PRejected e) st
  end.

Definition terminateWorker (st : wstate) : wstate :=
  if worker st then
    mkW false false (messageId st) (pendingRequests st) (promises st)
  else st.

End Transport.

Arguments mkW {R}.
Arguments worker {R}.
Arguments wasmReady {R}.
Arguments messageId {R}.
Arguments pendingRequests {R}.
Arguments promises {R}.
Arguments sendMessage {R}.
Arguments settle {R}.
Arguments handleWorkerMessage {R}.
Arguments terminateWorker {R}.
Arguments MsgReady {R}.
Arguments MsgBootError {R}.
Arguments MsgResult {R}.
Arguments MsgError {R}.

(** *** Boot with retry: [attemptWasmInit], [formatWasmError], [initWasm] *)

Local Open Scope string_scope.


Local Close Scope string_scope.














End Wasm.

(** ** Query results and their pagination (main.js) *)
Module Query.

Open Scope Z_scope.

Definition QUERY_PAGE_SIZE : Z := 100.

(** [Math.ceil(a / b)] for integers [a] and [b > 0]. *)
Definition math_ceil_div (a b : Z) : Z := - ((- a) / b).

(** [Array.prototype.slice(start, end)] with JavaScript's handling of
    negative and too large bounds. *)
Definition js_slice {A : Type} (l : list A) (start end_ : Z) : list A :=
  let len := Z.of_nat (length l) in
  let norm x := if x <? 0 then Z.max (len + x) 0 else Z.min x len in
  let s := norm start in
  let e := norm end_ in
  firstn (Z.to_nat (e - s)) (skipn (Z.to_nat s) l).

Section Paginator.
(** A row of the engine's answer (a positional array or a named
    mapping) and [Object.keys] on it. *)
Variable Row : Type.
Variable row_keys : Row -> list string.

(** [currentQueryResult] when it is not [null]. *)
Record stored := mkStored {
  rows : list Row;
  headers : list string;
  elapsed : string
}.

(** What [renderQueryPage] writes into [#query-output]: the header
    cells, the rows of the page, the "Showing a-b of n rows" line and,
    when there is more than one page, the pager with its labels, its
    disabled flags and the page numbers its buttons navigate to. *)
Record page_view := mkView {
  pv_headers : list string;
  pv_rows : list Row;
  pv_from : Z;             (** [startIdx + 1] *)
  pv_to : Z;               (** [endIdx] *)
  pv_total_rows : Z;
  pv_elapsed : string;
  pv_pager : option (Z * Z * bool * bool * Z * Z)
    (** [page + 1], [totalPages], first/previous disabled,
        next/last disabled, previous target, next target *)
}.

Inductive query_output :=
| OutUnchanged               (** whatever the element showed before any query *)
| OutTable (v : page_view)
| OutError (msg : string)
| OutNoResults (elapsed : string).

Record qui := mkQui {
  currentQueryResult : option stored;
  queryOutput : query_output
}.

Definition render_view (r : stored) (page : Z) : page_view :=
  let totalRows := Z.of_nat (length (rows r)) in
  let totalPages := math_ceil_div totalRows QUERY_PAGE_SIZE in
  let startIdx := page * QUERY_PAGE_SIZE in
  let endIdx := Z.min (startIdx + QUERY_PAGE_SIZE) totalRows in
  let pageRows := js_slice (rows r) startIdx endIdx in
  mkView (headers r) pageRows (startIdx + 1) endIdx totalRows (elapsed r)
    (if 1 <? totalPages then
       Some (page + 1, totalPages, page =? 0, totalPages - 1 <=? page,
             page - 1, page + 1)
     else None).

Definition renderQueryPage (page : Z) (ui : qui) : qui :=
  match currentQueryResult ui with
  | None => ui
  | Some r => mkQui (Some r) (OutTable (render_view r page))
  end.

Definition goToQueryPage (page : Z) (ui : qui) : qui :=
  match currentQueryResult ui with
  | None => ui
  | Some r =>
      let totalPages := math_ceil_div (Z.of_nat (length (rows r))) QUERY_PAGE_SIZE in
      if (page <? 0) || (totalPages <=? page) then ui
      else renderQueryPage page ui
  end.

(** The engine's [QueryResult]; [error] is tested for truthiness. *)
Record query_result := mkQR {
  q_error : option string;
  q_rows : option (list Row);
  q_columns : option (list string)
}.

Definition truthy_string (o : option string) : bool :=
  match o with
  | Some s => negb (String.eqb s EmptyString)
  | None => false
  end.

(** The part of [runQuery] after [await executeQuery(...)]:
    [result] is [null] when the engine was not ready or the call was
    rejected, and [el] is the measured [elapsed] label. *)
Definition runQuery_apply (el : string) (result : option query_result) (ui : qui) : qui :=
  match result with
  | None => ui
  | Some r =>
      if truthy_string (q_error r) then
        mkQui None (OutError (default EmptyString (q_error r)))
      else
        match q_rows r with
        | Some ((row0 :: _) as rs) =>
            let hs := match q_columns r with
                      | Some cs => cs
                      | None => row_keys row0
                      end in
            renderQueryPage 0 (mkQui (Some (mkStored rs hs el)) (queryOutput ui))
        | _ => mkQui None (OutNoResults el)
        end
  end.

End Paginator.

Arguments mkStored {Row}.
Arguments rows {Row}.
Arguments headers {Row}.
Arguments elapsed {Row}.
Arguments mkView {Row}.
Arguments pv_rows {Row}.
Arguments pv_from {Row}.
Arguments pv_to {Row}.
Arguments pv_pager {Row}.
Arguments OutTable {Row}.
Arguments OutError {Row}.
Arguments OutNoResults {Row}.
Arguments OutUnchanged {Row}.
Arguments mkQui {Row}.
Arguments currentQueryResult {Row}.
Arguments queryOutput {Row}.
Arguments render_view {Row}.
Arguments renderQueryPage {Row}.
Arguments goToQueryPage {Row}.
Arguments mkQR {Row}.
Arguments q_error {Row}.
Arguments q_rows {Row}.
Arguments q_columns {Row}.
Arguments runQuery_apply {Row} row_keys.

Close Scope Z_scope.

End Query.

(** ** Live validation and error-line annotation (main.js, editor.js) *)
Module Validate.

(** One entry of [ValidationResult.errors]; [line] is [None] when the
    engine gives no line number. *)
Record verror := mkErr { line : option nat; message : string }.

Record validation_result := mkVR { valid : bool; errors : list verror }.

Inductive status_text :=
| StatusInitial
| StatusValid                 (** "✓ Valid" *)
| StatusErrors (count : nat). (** "✗ n error(s)" *)

(** The part of the UI that [liveValidate] writes: the module-level
    [errorLines] and [errorMessages], the status tab, and the pair last
    handed to [editor.highlightErrorLines]. *)
Record vui := mkVui {
  errorLines : gset nat;
  errorMessages : gmap nat string;
  statusTab : status_text;
  highlighted : gset nat * gmap nat string
}.

(** The [result.errors.forEach] loop: [if (err.line)] skips a missing
    line and line 0. *)
Definition collect_errors (errs : list verror) (acc : gset nat * gmap nat string)
    : gset nat * gmap nat string :=
  fold_left
    (fun acc err =>
       match line err with
       | Some n => if decide (n = 0) then acc
                   else ({[ n ]} ∪ acc.1, <[ n := message err ]> acc.2)
       | None => acc
       end) errs acc.

(** [errorLines.clear(); errorMessages.clear()] *)
Definition cleared : gset nat * gmap nat string := (∅, ∅).

(** The part of [liveValidate] after [await validateSource(source)]. *)
Definition liveValidate_apply (result : option validation_result) (ui : vui) : vui :=
  match result with
  | None => ui
  | Some r =>
      if valid r then mkVui ∅ ∅ StatusValid (∅, ∅)
      else
        let '(ls, ms) := collect_errors (errors r) cleared in
        mkVui ls ms (StatusErrors (length (errors r))) (ls, ms)
  end.

(** One rendered [.cm-line] element: its [cm-error-line] class and its
    [data-error-message] attribute. *)
Record line_dom := mkLine { cls_error : bool; data_msg : option string }.

(** [highlightErrorLines(lineNumbers, errorMessages)]: the [idx]-th
    [.cm-line] element stands for line [idx + 1]. *)
Definition highlight_line (lineNumbers : gset nat) (msgs : gmap nat string)
    (lineNum : nat) (el : line_dom) : line_dom :=
  if decide (lineNum ∈ lineNumbers) then
    mkLine true (match msgs !! lineNum with
                 | Some m => Some m
                 | None => data_msg el
                 end)
  else mkLine false None.

Definition highlightErrorLines (lineNumbers : gset nat) (msgs : gmap nat string)
    (lines : list line_dom) : list line_dom :=
  imap (fun idx el => highlight_line lineNumbers msgs (S idx) el) lines.

End Validate.

(** ** Overlapping invocations of one operation family (main.js)

    [runQuery] and [liveValidate] both read their input, [await] one
    engine call through the shared transport, and then run their
    continuation on whatever the call returned.  An invocation is kept
    as its captured context under the request id of its call. *)
Module App.
Import Wasm.

Section Family.
Variables Res Ctx UI : Type.
(** The code after the [await]: [None] stands for the [null] that the
    engine wrappers return when the engine is not ready or the call is
    rejected. *)
Variable apply : Ctx -> option Res -> UI -> UI.

Record app := mkApp {
  net : wstate Res;
  waiting : gmap nat Ctx;
  ui : UI
}.

Inductive app_event :=
| Invoke (c : Ctx)              (** the family's function is called *)
| Deliver (m : worker_msg Res). (** [worker.onmessage] fires *)

Definition invoke (c : Ctx) (a : app) : app :=
  if negb (wasmReady (net a)) then a
  else match sendMessage (net a) with
       | (n', SendPosted id) => mkApp n' (<[ id := c ]> (waiting a)) (ui a)
       | (n', SendRejected _) => mkApp n' (waiting a) (apply c None (ui a))
       end.

(** Settling the promise of request [id] runs the continuation that
    awaits it, with the result, or with [null] on a rejection. *)
Definition resume (id : nat) (r : option Res) (a : app) (n' : wstate Res) : app :=
  if decide (id ∈ pendingRequests (net a)) then
    match waiting a !! id with
    | Some c => mkApp n' (delete id (waiting a)) (apply c r (ui a))
    | None => mkApp n' (waiting a) (ui a)
    end
  else mkApp n' (waiting a) (ui a).

Definition deliver (m : worker_msg Res) (a : app) : app :=
  let n' := handleWorkerMessage m (net a) in
  match m with
  | MsgResult id r => resume id (Some r) a n'
  | MsgError id _ => resume id None a n'
  | _ => mkApp n' (waiting a) (ui a)
  end.

Definition app_step (e : app_event) (a : app) : app :=
  match e with
  | Invoke c => invoke c a
  | Deliver m => deliver m a
  end.

Definition run (es : list app_event) (a : app) : app :=
  fold_left (fun a e => app_step e a) es a.

End Family.

Arguments mkApp {Res Ctx UI}.
Arguments net {Res Ctx UI}.
Arguments waiting {Res Ctx UI}.
Arguments ui {Res Ctx UI}.
Arguments Invoke {Res Ctx}.
Arguments Deliver {Res Ctx}.
Arguments invoke {Res Ctx UI}.
Arguments resume {Res Ctx UI}.
Arguments deliver {Res Ctx UI}.
Arguments app_step {Res Ctx UI}.
Arguments run {Res Ctx UI}.

End App.

(** ** Account hierarchy colouring (editor.js, query.js) *)
Module Decor.
Import JsString.

Local Open Scope string_scope.

Definition accountColors : list string :=
  ["#22d3ee"; "#5eead4"; "#6ee7b7"; "#fcd34d"; "#fdba74"].

(** [Decoration.mark({attributes: {style}})] is identified by its style. *)
Definition accountDecorations : list string :=
  map (fun color => "color: " ++ color ++ " !important") accountColors.

Definition colonDecoration : string :=
  "color: rgba(255, 255, 255, 0.5) !important".

Local Close Scope string_scope.

(** The inner [for] loop of [buildDecorations] over the parts of one
    account match: [builder.add(from, to, decoration)] calls. *)
Fixpoint deco_parts (parts : list (list ascii)) (i pos : nat)
    : list (nat * nat * string) :=
  match parts with
  | [] => []
  | part :: rest =>
      let partEnd := pos + length part in
      let colorIndex := Nat.min i (length accountDecorations - 1) in
      (pos, partEnd, nth colorIndex accountDecorations EmptyString) ::
      match rest with
      | [] => []
      | _ :: _ => (partEnd, S partEnd, colonDecoration) :: deco_parts rest (S i) (S partEnd)
      end
  end.

(** The decorations of one regex match [m] found at [accountStart]. *)
Definition decorate_match (accountStart : nat) (m : list ascii) : list (nat * nat * string) :=
  deco_parts (split ":"%char m) 0 accountStart.

(** [formatAccount] of query.js. *)
Definition tw_colors : list (list ascii) :=
  map chars ["text-cyan-400"; "text-teal-300"; "text-emerald-300";
             "text-amber-300"; "text-orange-300"]%string.

Definition dq : list ascii := [ascii_of_nat 34].

Definition separator_html : list ascii :=
  chars "<span class=" ++ dq ++ chars "text-white/50" ++ dq ++ chars ">:</span>".

Definition part_html (colorClass part : list ascii) : list ascii :=
  chars "<span class=" ++ dq ++ colorClass ++ dq ++ chars ">" ++
  Utils.escapeHtml part ++ chars "</span>".

Fixpoint format_parts (parts : list (list ascii)) (i : nat) : list ascii :=
  match parts with
  | [] => []
  | part :: rest =>
      let colorClass := nth (Nat.min i (length tw_colors - 1)) tw_colors [] in
      let separator := match rest with [] => [] | _ :: _ => separator_html end in
      part_html colorClass part ++ separator ++ format_parts rest (S i)
  end.

Definition formatAccount (account : list ascii) : list ascii :=
  format_parts (split ":"%char account) 0.

End Decor.

(** ** [fetchWithRetry] and [getRetryDelay] (utils.js) *)
Module Fetch.
Import JsString.

Open Scope Z_scope.

(** The white space [parseInt] skips (StrWhiteSpaceChar) among the code
    units 0-255 a header value can hold: tab, line feed, vertical tab,
    form feed, carriage return, space and no-break space (U+00A0). *)
Definition is_space (c : ascii) : bool :=
  let n := nat_of_ascii c in
  ((9 <=? n) && (n <=? 13))%nat || (n =? 32)%nat || (n =? 160)%nat.

Definition digit_value (c : ascii) : option Z :=
  let n := nat_of_ascii c in
  if ((48 <=? n) && (n <=? 57))%nat then Some (Z.of_nat n - 48) else None.

Fixpoint skip_spaces (s : list ascii) : list ascii :=
  match s with
  | c :: s' => if is_space c then skip_spaces s' else s
  | [] => []
  end.

(** The longest run of decimal digits at the head of [s], as
    (number of digits, value). *)
Fixpoint digits (s : list ascii) (acc : Z) (k : nat) : nat * Z :=
  match s with
  | c :: s' =>
      match digit_value c with
      | Some d => digits s' (acc * 10 + d) (S k)
      | None => (k, acc)
      end
  | [] => (k, acc)
  end.

(** [parseInt(s, 10)]: leading white space, an optional sign, then
    decimal digits; [None] is [NaN]. *)
Definition parseInt10 (s : list ascii) : option Z :=
  let s1 := skip_spaces s in
  let '(sign, s2) :=
    match s1 with
    | c :: r => if Ascii.eqb c "-"%char then (-1, r)
                else if Ascii.eqb c "+"%char then (1, r) else (1, s1)
    | [] => (1, s1)
    end in
  let '(k, v) := digits s2 0 0 in
  if (k =? 0)%nat then None else Some (sign * v).

(** [response.headers.get(name)] for the three headers the code reads. *)
Record headers := mkHeaders {
  retry_after : option (list ascii);
  ratelimit_reset : option (list ascii);
  ratelimit_remaining : option (list ascii)
}.

Definition no_headers : headers := mkHeaders None None None.

(** A header value is truthy when present and non-empty. *)
Definition header_truthy (h : option (list ascii)) : option (list ascii) :=
  match h with
  | Some (_ :: _) => h
  | _ => None
  end.

(** [getRetryDelay(response, attempt, baseDelay)]; [now] is [Date.now()]. *)
Definition getRetryDelay (h : headers) (attempt : nat) (baseDelay now : Z) : Z :=
  let from_retry_after :=
    match header_truthy (retry_after h) with
    | Some s => option_map (fun seconds => seconds * 1000) (parseInt10 s)
    | None => None
    end in
  match from_retry_after with
  | Some d => d
  | None =>
      let from_reset :=
        match header_truthy (ratelimit_reset h) with
        | Some s =>
            match parseInt10 s with
            | Some t => let resetTimestamp := t * 1000 in
                        if now <? resetTimestamp
                        then Some (Z.min (resetTimestamp - now + 1000) 60000)
                        else None
            | None => None
            end
        | None => None
        end in
      match from_reset with
      | Some d => d
      | None => baseDelay * 2 ^ Z.of_nat attempt
      end
  end.

(** [remaining && parseInt(remaining, 10) === 0] *)
Definition rate_limit_exhausted (h : headers) : bool :=
  match header_truthy (ratelimit_remaining h) with
  | Some s => bool_decide (parseInt10 s = Some 0)
  | None => false
  end.

(** How the [await fetch(...)] of one attempt ends. *)
Inductive fetch_outcome :=
| FResponse (status : Z) (h : headers)
| FNetworkError (msg : string)
| FTimeout.

Inductive fetch_event :=
| EvFetch
| EvWait (ms : Z).

Inductive fetch_result :=
| FReturn (status : Z) (attempt : nat)
| FThrow (msg : string).

(** The [for] loop of [fetchWithRetry]; [fuel] counts the attempts
    left, [now attempt] is [Date.now()] during that attempt. *)
Fixpoint fetch_loop (maxRetries : nat) (baseDelay : Z) (timeout : N) (now : nat -> Z)
    (outcome : nat -> fetch_outcome) (fuel attempt : nat) (lastError : option string)
    : list fetch_event * fetch_result :=
  match fuel with
  | O => ([], FThrow (default "Failed to fetch after retries"%string lastError))
  | S fuel' =>
      let continue_after (d : Z) (le : option string) :=
        let '(evs, r) := fetch_loop maxRetries baseDelay timeout now outcome fuel' (S attempt) le in
        (EvFetch :: EvWait d :: evs, r) in
      match outcome attempt with
      | FResponse status h =>
          if rate_limit_exhausted h && (status =? 403) && (attempt <? maxRetries)%nat
          then continue_after (getRetryDelay h attempt baseDelay (now attempt)) lastError
          else if (400 <=? status) && (status <? 500) && negb (status =? 429) then
            ([EvFetch], FReturn status attempt)
          else if ((500 <=? status) || (status =? 429)) && (attempt <? maxRetries)%nat then
            continue_after (getRetryDelay h attempt baseDelay (now attempt)) lastError
          else ([EvFetch], FReturn status attempt)
      | FNetworkError msg =>
          if (attempt <? maxRetries)%nat
          then continue_after (baseDelay * 2 ^ Z.of_nat attempt) (Some msg)
          else let '(evs, r) :=
                 fetch_loop maxRetries baseDelay timeout now outcome fuel' (S attempt) (Some msg) in
               (EvFetch :: evs, r)
      | FTimeout =>
          let msg := ("Request timed out after " +:+ pretty timeout +:+ "ms")%string in
          if (attempt <? maxRetries)%nat
          then continue_after (baseDelay * 2 ^ Z.of_nat attempt) (Some msg)
          else let '(evs, r) :=
                 fetch_loop maxRetries baseDelay timeout now outcome fuel' (S attempt) (Some msg) in
               (EvFetch :: evs, r)
      end
  end.

Definition fetchWithRetry (maxRetries : nat) (baseDelay : Z) (timeout : N) (now : nat -> Z)
    (outcome : nat -> fetch_outcome) : list fetch_event * fetch_result :=
  fetch_loop maxRetries baseDelay timeout now outcome (S maxRetries) 0 None.

Close Scope Z_scope.

End Fetch.

(** ** Account-path autocomplete (editor.js) *)
Module Autocomplete.
Import JsString.

(** The module-level [accountAutocomplete] object; [hidden] is the
    [hidden] class of its dropdown. *)
Record ac_state := mkAc {
  items : list (list ascii);
  selectedIndex : Z;
  startPos : nat;
  active : bool;
  hidden : bool
}.

Definition hideAccountAutocomplete (st : ac_state) : ac_state :=
  mkAc [] (-1)%Z (startPos st) false true.

Definition account_matches (lowerFilter a : list ascii) : bool :=
  includes (toLowerCase a) lowerFilter.

Definition showAccountAutocomplete (accounts : list (list ascii)) (filter_ : list ascii)
    (startPos_ : nat) (st : ac_state) : ac_state :=
  let lowerFilter := toLowerCase filter_ in
  let its := firstn 10 (List.filter (account_matches lowerFilter) accounts) in
  match its with
  | [] => hideAccountAutocomplete st
  | _ :: _ => mkAc its 0%Z startPos_ true false
  end.

End Autocomplete.


(** ** Regular expressions (utils.js, editor.js)

    The regular expressions of the code, with the backtracking semantics
    of ECMAScript: a match at a position is the first one found trying
    the alternatives left to right and repetitions greedily, and an
    iteration of [*] that consumes nothing fails. *)
Module Regex.
Import JsString.

Inductive regex :=
| RClass (p : ascii -> bool)  (** a character class, or one literal character *)
| RSeq (r1 r2 : regex)
| RAlt (r1 r2 : regex)
| RStar (r : regex)           (** greedy [r*] *)
| REmpty
| RBegin                      (** [^] without the [m] flag *)
| RLineBegin.                 (** [^] with the [m] flag *)

Definition RPlus (r : regex) : regex := RSeq r (RStar r).
Definition ROpt (r : regex) : regex := RAlt r REmpty.

Definition in_range (lo hi : nat) (c : ascii) : bool :=
  (lo <=? nat_of_ascii c) && (nat_of_ascii c <=? hi).

Definition is_upper : ascii -> bool := in_range 65 90.
Definition is_lower : ascii -> bool := in_range 97 122.
Definition is_digit : ascii -> bool := in_range 48 57.
Definition is_char (x : ascii) (c : ascii) : bool := Ascii.eqb c x.

(** [\s] on the code units below 256: tab, line feed, vertical tab,
    form feed, carriage return, space and no-break space. *)
Definition js_space (c : ascii) : bool :=
  in_range 9 13 c || (nat_of_ascii c =? 32) || (nat_of_ascii c =? 160).

(** The line terminators below 256, after which [^] matches in [m] mode. *)
Definition line_terminator (c : ascii) : bool :=
  (nat_of_ascii c =? 10) || (nat_of_ascii c =? 13).

(** [[A-Za-z0-9-]] *)
Definition acct_char (c : ascii) : bool :=
  is_upper c || is_lower c || is_digit c || is_char "-"%char c.

(** A continuation: the rest of the pattern, run at a position. *)
Definition cont := list ascii -> list ascii -> option (list ascii).

(** The greedy loop of [r*], given the matcher [m1] of [r]; [n] bounds
    the iterations, and each iteration consumes at least a character. *)
Fixpoint star_loop (m1 : list ascii -> list ascii -> cont -> option (list ascii))
    (k : cont) (n : nat) (b s : list ascii) : option (list ascii) :=
  match n with
  | O => k b s
  | S n' =>
      match m1 b s (fun b' s' =>
              if length s' <? length s then star_loop m1 k n' b' s' else None) with
      | Some x => Some x
      | None => k b s
      end
  end.

(** The matcher at a position: [b] is the text before the position,
    reversed, [s] the text after it, and [k] the rest of the pattern;
    the result is the text left after the whole match. *)
Fixpoint m (r : regex) (b s : list ascii) (k : cont) {struct r} : option (list ascii) :=
  match r with
  | RClass p =>
      match s with
      | c :: s' => if p c then k (c :: b) s' else None
      | [] => None
      end
  | RSeq r1 r2 => m r1 b s (fun b' s' => m r2 b' s' k)
  | RAlt r1 r2 =>
      match m r1 b s k with
      | Some x => Some x
      | None => m r2 b s k
      end
  | RStar r1 => star_loop (m r1) k (S (length s)) b s
  | REmpty => k b s
  | RBegin => match b with [] => k b s | _ :: _ => None end
  | RLineBegin =>
      match b with
      | [] => k b s
      | c :: _ => if line_terminator c then k b s else None
      end
  end.

(** The words a regular expression matches, the anchors left aside. *)
Inductive in_lang : regex -> list ascii -> Prop :=
| LClass p c : p c = true -> in_lang (RClass p) [c]
| LSeq r1 r2 w1 w2 : in_lang r1 w1 -> in_lang r2 w2 -> in_lang (RSeq r1 r2) (w1 ++ w2)
| LAltL r1 r2 w : in_lang r1 w -> in_lang (RAlt r1 r2) w
| LAltR r1 r2 w : in_lang r2 w -> in_lang (RAlt r1 r2) w
| LStar0 r : in_lang (RStar r) []
| LStarS r w1 w2 : in_lang r w1 -> in_lang (RStar r) w2 -> in_lang (RStar r) (w1 ++ w2)
| LEmpty : in_lang REmpty []
| LBegin : in_lang RBegin []
| LLineBegin : in_lang RLineBegin [].

(** The match at a position, as the text left after it. *)
Definition match_at (r : regex) (b s : list ascii) : option (list ascii) :=
  m r b s (fun _ s' => Some s').

(** The successive matches of a global regular expression over [s]
    (a [while (re.exec(s))] loop, or [s.match(re)]): each is reported
    with its index and text, and the search resumes at its end, or one
    position further after an empty match. *)
Fixpoint scan (r : regex) (fuel : nat) (b s : list ascii) : list (nat * list ascii) :=
  match fuel with
  | O => []
  | S f =>
      match match_at r b s with
      | Some s' =>
          let w := firstn (length s - length s') s in
          (length b, w) ::
          match w with
          | [] => match s with [] => [] | c :: s2 => scan r f (c :: b) s2 end
          | _ :: _ => scan r f (rev w ++ b) s'
          end
      | None => match s with [] => [] | c :: s2 => scan r f (c :: b) s2 end
      end
  end.

Definition matches (r : regex) (s : list ascii) : list (nat * list ascii) :=
  scan r (S (length s)) [] s.

(** [re.test(s)] for a regular expression without the [g] flag. *)
Definition test (r : regex) (s : list ascii) : bool :=
  match matches r s with [] => false | _ :: _ => true end.

End Regex.

(** ** Accounts of a ledger (utils.js, editor.js) *)
Module Accounts.
Import JsString Regex.

(** [/[A-Z][A-Za-z0-9-]*(?::[A-Za-z0-9-]+)+/g] *)
Definition accountRegex : regex :=
  RSeq (RClass is_upper)
    (RSeq (RStar (RClass acct_char))
       (RPlus (RSeq (RClass (is_char ":"%char)) (RPlus (RClass acct_char))))).

(** [set.add(x)] on a [Set] kept as its insertion-ordered contents. *)
Definition set_add (x : list ascii) (set : list (list ascii)) : list (list ascii) :=
  if decide (x ∈ set) then set else set ++ [x].

(** [extractAccounts(source)]: the [Set] of the matched texts, in the
    order [Array.from] lists them. *)
Definition extractAccounts (source : list ascii) : list (list ascii) :=
  fold_left (fun acc mt => set_add mt.2 acc) (matches accountRegex source) [].

(** [buildDecorations(view)] of the account colorizer: for each visible
    range [(from, to)] of the document, the [builder.add] calls of every
    account match of [sliceDoc(from, to)].  The regular expression is
    created once per call; its [lastIndex] is back at 0 when the [while]
    loop of a range ends. *)
Definition buildDecorations (doc : list ascii) (visibleRanges : list (nat * nat))
    : list (nat * nat * string) :=
  flat_map (fun '(from, to) =>
    let text := firstn (to - from) (skipn from doc) in
    flat_map (fun '(idx, w) => Decor.decorate_match (from + idx) w)
      (matches accountRegex text)) visibleRanges.

End Accounts.

(** ** The account autocomplete trigger and keys (editor.js) *)
Module EditorKeys.
Import JsString Regex Autocomplete.

(** [/^[A-Z][A-Za-z0-9-]*:?/] *)
Definition triggerRegex : regex :=
  RSeq RBegin (RSeq (RClass is_upper)
    (RSeq (RStar (RClass acct_char)) (ROpt (RClass (is_char ":"%char))))).

(** The [while] loop that moves [wordStart] back from the cursor column
    to the previous [\s] of the line. *)
Fixpoint wordStart_from (lineText : list ascii) (wordStart : nat) : nat :=
  match wordStart with
  | O => O
  | S w' =>
      match nth_error lineText w' with
      | Some c => if js_space c then wordStart else wordStart_from lineText w'
      | None => wordStart   (** not reached: the cursor lies within its line *)
      end
  end.

(** The [autocompleteUpdateListener] after a document change: the
    cursor is at column [colInLine] of a line starting at offset
    [lineFrom], and [known] is [Array.from(knownAccountsRef)]. *)
Definition autocompleteUpdate (lineText : list ascii) (lineFrom colInLine : nat)
    (known : list (list ascii)) (st : ac_state) : ac_state :=
  let wordStart := wordStart_from lineText colInLine in
  let currentWord := firstn (colInLine - wordStart) (skipn wordStart lineText) in
  if (2 <=? length currentWord) && test triggerRegex currentWord then
    match known with
    | [] => st
    | _ :: _ => showAccountAutocomplete known currentWord (lineFrom + wordStart) st
    end
  else hideAccountAutocomplete st.

(** The editor: its document, the cursor ([selection.main.head]) and
    the autocomplete state. *)
Record editor := mkEditor { doc : list ascii; head : nat; ac : ac_state }.

(** [view.dispatch({changes: {from, to, insert}, selection})]: [None]
    is the [RangeError] CodeMirror raises for a change outside the
    document or with [from > to]. *)
Definition dispatch_change (from to_ : nat) (insert : list ascii) (anchor : nat)
    (doc_ : list ascii) : option (list ascii * nat) :=
  if (from <=? to_) && (to_ <=? length doc_) then
    Some (firstn from doc_ ++ insert ++ skipn to_ doc_, anchor)
  else None.

Definition selectAccountAutocompleteItem (index : Z) (e : editor) : option editor :=
  if (index <? 0)%Z || (Z.of_nat (length (items (ac e))) <=? index)%Z then Some e
  else
    let item := nth (Z.to_nat index) (items (ac e)) [] in
    let from := startPos (ac e) in
    match dispatch_change from (head e) item (from + length item) (doc e) with
    | Some (d, h) => Some (mkEditor d h (hideAccountAutocomplete (ac e)))
    | None => None
    end.

Definition updateAccountAutocompleteSelection (direction : Z) (st : ac_state) : ac_state :=
  match items st with
  | [] => st
  | _ :: _ =>
      let n := Z.of_nat (length (items st)) in
      let i1 := (selectedIndex st + direction)%Z in
      let i2 := if (i1 <? 0)%Z then (n - 1)%Z else i1 in
      let i3 := if (n <=? i2)%Z then 0%Z else i2 in
      mkAc (items st) i3 (startPos st) (active st) (hidden st)
  end.

Inductive key := KArrowDown | KArrowUp | KEnter | KTab | KEscape.

(** The [autocompleteKeymap] bindings: whether the key is handled (the
    [run] result) and the editor after it; [None] is an exception. *)
Definition autocompleteKey (k : key) (e : editor) : option (bool * editor) :=
  let st := ac e in
  match k with
  | KArrowDown =>
      if active st then Some (true, mkEditor (doc e) (head e) (updateAccountAutocompleteSelection 1 st))
      else Some (false, e)
  | KArrowUp =>
      if active st then Some (true, mkEditor (doc e) (head e) (updateAccountAutocompleteSelection (-1) st))
      else Some (false, e)
  | KEnter =>
      if active st && (0 <=? selectedIndex st)%Z then
        option_map (fun e' => (true, e')) (selectAccountAutocompleteItem (selectedIndex st) e)
      else Some (false, e)
  | KTab =>
      if active st && (0 <? length (items st)) then
        option_map (fun e' => (true, e'))
          (selectAccountAutocompleteItem (Z.max 0 (selectedIndex st)) e)
      else Some (false, e)
  | KEscape =>
      if active st then Some (true, mkEditor (doc e) (head e) (hideAccountAutocomplete st))
      else Some (false, e)
  end.

End EditorKeys.

(** ** The query input: BQL autocomplete and live validation (query.js) *)
Module QueryInput.
Import JsString Regex.

(** A BQL completion: [{text, category, description?}]. *)
Record completion := mkCompletion {
  c_text : list ascii;
  c_category : list ascii;
  c_description : option (list ascii)
}.

(** The module-level state of query.js and the query input it drives:
    the [hidden] class of [autocompleteDropdown] (created hidden by
    [initQueryAutocomplete]), [autocompleteSelectedIndex],
    [autocompleteItems], [autocompleteContext], the input's [value],
    [selectionStart] and [dataset.editorContent], the container's
    [style.backgroundColor], and the pending [queryValidationTimeout]
    with the [currentQuery] its callback captured. *)
Record qstate := mkQ {
  q_hidden : bool;
  q_selected : Z;
  q_items : list completion;
  q_context : option (nat * nat * list ascii);
  q_value : list ascii;
  q_cursor : nat;
  q_editorContent : list ascii;
  q_bg : list ascii;
  q_timer : option (list ascii)
}.

Definition bg_invalid : list ascii := chars "rgba(239, 68, 68, 0.2)".
Definition bg_valid : list ascii := chars "rgba(34, 197, 94, 0.2)".

(** [String.prototype.trim] on the code units below 256, whose white
    space and line terminators are those of [\s]. *)
Fixpoint trim_start (s : list ascii) : list ascii :=
  match s with
  | [] => []
  | c :: s' => if js_space c then trim_start s' else s
  end.

Definition trim (s : list ascii) : list ascii := rev (trim_start (rev (trim_start s))).

(** What an [async] function of wasm.js hands back to a caller that
    does not [await] it: a [Promise], never [null]. *)
Inductive js_promise := Promise.

Definition getBqlCompletions (text : list ascii) (cursorPos : nat) : js_promise := Promise.
Definition executeQuery (source queryStr : list ascii) : js_promise := Promise.

(** [result.completions] and [result.errors] on a [Promise]: neither
    property exists on it, so both read [undefined]. *)
Definition promise_completions (p : js_promise) : option (list completion) :=
  match p with Promise => None end.
Definition promise_errors (p : js_promise) : option (list (list ascii)) :=
  match p with Promise => None end.

Definition with_hidden (st : qstate) (h : bool) (sel : Z) (its : list completion)
    (ctx : option (nat * nat * list ascii)) : qstate :=
  mkQ h sel its ctx (q_value st) (q_cursor st) (q_editorContent st) (q_bg st) (q_timer st).

Definition hideAutocomplete (st : qstate) : qstate :=
  with_hidden st true (-1) [] None.

Definition showAutocomplete (completions : list completion) (filter_ : list ascii)
    (st : qstate) : qstate :=
  let lowerFilter := toLowerCase filter_ in
  let its := List.filter (fun c => starts_with lowerFilter (toLowerCase (c_text c))) completions in
  match its with
  | [] => hideAutocomplete st
  | _ :: _ => with_hidden st false (-1) its (q_context st)
  end.

(** [validateQueryInput()]: the previous timeout is cleared; an empty
    trimmed query resets the background at once, any other query arms a
    new 150 ms timeout. *)
Definition validateQueryInput (st : qstate) : qstate :=
  let currentQuery := trim (q_value st) in
  match currentQuery with
  | [] => mkQ (q_hidden st) (q_selected st) (q_items st) (q_context st) (q_value st)
             (q_cursor st) (q_editorContent st) [] None
  | _ :: _ => mkQ (q_hidden st) (q_selected st) (q_items st) (q_context st) (q_value st)
             (q_cursor st) (q_editorContent st) (q_bg st) (Some currentQuery)
  end.

(** The callback of that timeout, with [isWasmReady()] at the time it
    runs; the call [executeQuery] starts is not awaited. *)
Definition validation_timeout (ready : bool) (st : qstate) : qstate :=
  match q_timer st with
  | None => st
  | Some currentQuery =>
      let st0 := mkQ (q_hidden st) (q_selected st) (q_items st) (q_context st) (q_value st)
                   (q_cursor st) (q_editorContent st) (q_bg st) None in
      if negb ready then st0
      else
        match q_editorContent st with
        | [] => st0
        | _ :: _ =>
            let result := executeQuery (q_editorContent st) currentQuery in
            let bg := match promise_errors result with
                      | Some (_ :: _) => bg_invalid
                      | _ => bg_valid
                      end in
            mkQ (q_hidden st) (q_selected st) (q_items st) (q_context st) (q_value st)
              (q_cursor st) (q_editorContent st) bg None
        end
  end.

Definition selectAutocompleteItem (index : Z) (st : qstate) : qstate :=
  if (index <? 0)%Z || (Z.of_nat (length (q_items st)) <=? index)%Z then st
  else
    match q_context st with
    | None => st
    | Some (tokenStart, tokenEnd, value) =>
        let item := nth (Z.to_nat index) (q_items st) (mkCompletion [] [] None) in
        let before := firstn tokenStart value in
        let after := skipn tokenEnd value in
        let completion_ := c_text item in
        let newPos := tokenStart + length completion_ in
        let st1 := mkQ (q_hidden st) (q_selected st) (q_items st) (q_context st)
                     (before ++ completion_ ++ after) newPos (q_editorContent st)
                     (q_bg st) (q_timer st) in
        validateQueryInput (hideAutocomplete st1)
    end.

Definition updateAutocompleteSelection (direction : Z) (st : qstate) : qstate :=
  match q_items st with
  | [] => st
  | _ :: _ =>
      let n := Z.of_nat (length (q_items st)) in
      let i1 := (q_selected st + direction)%Z in
      let i2 := if (i1 <? 0)%Z then (n - 1)%Z else i1 in
      let i3 := if (n <=? i2)%Z then 0%Z else i2 in
      with_hidden st (q_hidden st) i3 (q_items st) (q_context st)
  end.

Inductive qkey := QArrowDown | QArrowUp | QEnter | QTab | QEscape | QOther.

(** [handleQueryInputKeydown(e)]: the state after it, whether it called
    [e.preventDefault()] and whether it dispatched a [runquery] event. *)
Definition handleQueryInputKeydown (k : qkey) (st : qstate) : qstate * bool * bool :=
  if negb (q_hidden st) then
    match k with
    | QArrowDown => (updateAutocompleteSelection 1 st, true, false)
    | QArrowUp => (updateAutocompleteSelection (-1) st, true, false)
    | QEnter | QTab =>
        if (0 <=? q_selected st)%Z then (selectAutocompleteItem (q_selected st) st, true, false)
        else if (0 <? length (q_items st)) && match k with QTab => true | _ => false end then
          (selectAutocompleteItem 0 st, true, false)
        else if match k with QEnter => true | _ => false end then (hideAutocomplete st, false, false)
        else (st, false, false)
    | QEscape => (hideAutocomplete st, true, false)
    | QOther => (st, false, false)
    end
  else
    match k with
    | QEnter =>
        match trim (q_value st) with
        | [] => (st, false, false)
        | _ :: _ => (st, true, true)
        end
    | _ => (st, false, false)
    end.

(** [/[\s(),]/] *)
Definition token_sep (c : ascii) : bool :=
  js_space c || is_char "("%char c || is_char ")"%char c || is_char ","%char c.

(** The [while] loop moving [tokenStart] back from the cursor. *)
Fixpoint tokenStart_from (value : list ascii) (tokenStart : nat) : nat :=
  match tokenStart with
  | O => O
  | S t' =>
      match nth_error value t' with
      | Some c => if token_sep c then tokenStart else tokenStart_from value t'
      | None => tokenStart
      end
  end.

(** The [while] loop moving [tokenEnd] forward from the cursor. *)
Fixpoint tokenEnd_from (rest : list ascii) (tokenEnd : nat) : nat :=
  match rest with
  | [] => tokenEnd
  | c :: rest' => if token_sep c then tokenEnd else tokenEnd_from rest' (S tokenEnd)
  end.

(** [handleQueryInput(e)], also run on [focus], with [isWasmReady()]. *)
Definition handleQueryInput (ready : bool) (st : qstate) : qstate :=
  if negb ready then st
  else
    let value := q_value st in
    let cursorPos := q_cursor st in
    let result := getBqlCompletions value cursorPos in
    let st1 :=
      match promise_completions result with
      | Some ((_ :: _) as cs) =>
          let tokenStart := tokenStart_from value cursorPos in
          let tokenEnd := tokenEnd_from (skipn cursorPos value) cursorPos in
          let currentToken := firstn (cursorPos - tokenStart) (skipn tokenStart value) in
          showAutocomplete cs currentToken
            (with_hidden st (q_hidden st) (q_selected st) (q_items st)
               (Some (tokenStart, tokenEnd, value)))
      | _ => hideAutocomplete st
      end in
    validateQueryInput st1.

(** The events reaching the query input: an edit of its value and
    cursor (by the user or by main.js), an [input] or [focus] event, a
    key press, the 150 ms [hideAutocomplete] armed on [blur], the
    validation timeout, main.js storing the editor content, and
    [updateQueryButtons()] (which ends by validating). *)
Inductive qevent :=
| QSetValue (v : list ascii) (cursor : nat)
| QInput (ready : bool)
| QKey (k : qkey)
| QBlurTimeout
| QValidationTimeout (ready : bool)
| QEditorContent (source : list ascii)
| QUpdateButtons.

Definition q_step (ev : qevent) (st : qstate) : qstate * bool :=
  match ev with
  | QSetValue v c =>
      (mkQ (q_hidden st) (q_selected st) (q_items st) (q_context st) v c
         (q_editorContent st) (q_bg st) (q_timer st), false)
  | QInput ready => (handleQueryInput ready st, false)
  | QKey k => let '(st', _, dispatched) := handleQueryInputKeydown k st in (st', dispatched)
  | QBlurTimeout => (hideAutocomplete st, false)
  | QValidationTimeout ready => (validation_timeout ready st, false)
  | QEditorContent s =>
      (mkQ (q_hidden st) (q_selected st) (q_items st) (q_context st) (q_value st)
         (q_cursor st) s (q_bg st) (q_timer st), false)
  | QUpdateButtons => (validateQueryInput st, false)
  end.

(** The state after a sequence of events, and how many [runquery]
    events were dispatched. *)
Fixpoint q_run (evs : list qevent) (st : qstate) : qstate * nat :=
  match evs with
  | [] => (st, 0)
  | ev :: evs' =>
      let '(st1, d) := q_step ev st in
      let '(st2, n) := q_run evs' st1 in
      (st2, (if d then 1 else 0) + n)
  end.

End QueryInput.

(** ** Runs of the worker bridge (wasm.js) *)
Module WasmRun.
Import Wasm.

(** What can happen to the bridge: a [sendMessage] call, a message
    from the worker, [terminateWorker()], and [attemptWasmInit] creating
    a new worker. *)
Inductive wevent (R : Type) :=
| WSend
| WMsg (msg : worker_msg R)
| WTerminate
| WCreate.
Arguments WSend {R}.
Arguments WMsg {R} msg.
Arguments WTerminate {R}.
Arguments WCreate {R}.

Definition w_step {R : Type} (ev : wevent R) (st : wstate R) : wstate R :=
  match ev with
  | WSend => fst (sendMessage st)
  | WMsg msg => handleWorkerMessage msg st
  | WTerminate => terminateWorker st
  | WCreate => mkW true (wasmReady st) (messageId st) (pendingRequests st) (promises st)
  end.

Definition w_run {R : Type} (evs : list (wevent R)) (st : wstate R) : wstate R :=
  fold_left (fun st ev => w_step ev st) evs st.

(** The bookkeeping the bridge keeps: an id is in [pendingRequests]
    exactly when its promise is still pending, and every id handed out
    so far is below [messageId]. *)
Definition bridge_ok {R : Type} (st : wstate R) : Prop :=
  (forall id, id ∈ pendingRequests st <-> promises st !! id = Some PPending) /\
  (forall id p, promises st !! id = Some p -> id < messageId st).

Definition w_init {R : Type} : wstate R := mkW false false 0 ∅ ∅.

End WasmRun.

(** ** Counting the requests of [fetchWithRetry] (utils.js) *)
Module FetchCount.
Import Fetch.

Definition fetch_count (evs : list fetch_event) : nat :=
  length (List.filter (fun e => match e with EvFetch => true | EvWait _ => false end) evs).

End FetchCount.

(** ** Ledger statistics (utils.js) *)
Module Stats.
Import JsString Regex.

Definition digit : regex := RClass is_digit.
Definition lit (c : ascii) : regex := RClass (is_char c).

(** [/^\d{4}-\d{2}-\d{2}\s+(?:\*|!|txn)\s/gm] *)
Definition txnRegex : regex :=
  RSeq RLineBegin
    (RSeq (RSeq digit (RSeq digit (RSeq digit digit)))
    (RSeq (lit "-")
    (RSeq (RSeq digit digit)
    (RSeq (lit "-")
    (RSeq (RSeq digit digit)
    (RSeq (RPlus (RClass js_space))
    (RSeq (RAlt (lit "*") (RAlt (lit "!") (RSeq (lit "t") (RSeq (lit "x") (lit "n")))))
          (RClass js_space)))))))).

(** [countTransactions(source)]: the number of matches of
    [source.match(txnRegex)], 0 when it is [null]. *)
Definition countTransactions (source : list ascii) : nat :=
  length (matches txnRegex source).

(** The text of a line the count accepts: a date [dddd-dd-dd], a
    non-empty run of [\s] (line breaks included), the mark [*], [!] or
    [txn], and one [\s]. *)
Definition txn_line_shape (w : list ascii) : Prop :=
  exists date ws mark c,
    w = date ++ ws ++ mark ++ [c] /\
    (exists y1 y2 y3 y4 m1 m2 d1 d2,
       date = [y1; y2; y3; y4; "-"; m1; m2; "-"; d1; d2]%char /\
       Forall (fun x => is_digit x = true) [y1; y2; y3; y4; m1; m2; d1; d2]) /\
    ws <> [] /\ Forall (fun x => js_space x = true) ws /\
    (mark = ["*"%char] \/ mark = ["!"%char] \/ mark = chars "txn") /\
    js_space c = true.

End Stats.

(** ** Predicates used to state the properties below *)
Module SpecHelpers.
Import JsString Regex QueryInput.

(** The matches found by [scan]: each is a word of the expression,
    they come in order without overlapping, and they lie in the text. *)
Fixpoint matches_sorted (p lim : nat) (l : list (nat * list ascii)) : Prop :=
  match l with
  | [] => True
  | (i, w) :: l' => p <= i /\ i + length w <= lim /\ matches_sorted (i + length w) lim l'
  end.

(** The segments [:seg] of an account after its first one. *)
Definition colon_segments (segs : list (list ascii)) : list ascii :=
  concat (map (fun seg => ":"%char :: seg) segs).

(** Decorations handed to [RangeSetBuilder.add] in order: each starts
    at or after the end of the previous one, and ends after it starts. *)
Fixpoint sorted_from (p : nat) (l : list (nat * nat * string)) : Prop :=
  match l with
  | [] => True
  | d :: l' => p <= d.1.1 /\ d.1.1 <= d.1.2 /\ sorted_from d.1.2 l'
  end.

(** Visible ranges in document order, not overlapping. *)
Fixpoint ranges_sorted (p : nat) (vr : list (nat * nat)) : Prop :=
  match vr with
  | [] => True
  | (f, t) :: vr' => p <= f /\ f <= t /\ ranges_sorted t vr'
  end.

(** The length of [parts.join(':')]. *)
Fixpoint parts_len (parts : list (list ascii)) : nat :=
  match parts with
  | [] => 0
  | [p] => length p
  | p :: rest => length p + S (parts_len rest)
  end.

(** The dropdown is hidden and empty, nothing selected, no context. *)
Definition closed (st : qstate) : Prop :=
  q_hidden st = true /\ q_items st = [] /\ q_selected st = (-1)%Z /\ q_context st = None.

Definition enter_runs (k : qkey) (st : qstate) : bool :=
  match k with
  | QEnter => match trim (q_value st) with [] => false | _ :: _ => true end
  | _ => false
  end.

Definition q_init : qstate := mkQ true (-1) [] None [] 0 [] [] None.

Definition timeout_msg (timeout : N) : string :=
  ("Request timed out after " +:+ pretty timeout +:+ "ms")%string.

End SpecHelpers.

(** * Properties *)

(** ** [escapeHtml] *)
Module UtilsProofs.
Import JsString Utils.

Lemma replace_all_app c r a b :
  replace_all c r (a ++ b) = replace_all c r a ++ replace_all c r b.
Proof. unfold replace_all. apply flat_map_app. Qed.

Lemma escapeHtml_app a b : escapeHtml (a ++ b) = escapeHtml a ++ escapeHtml b.
Proof. unfold escapeHtml. now rewrite !replace_all_app. Qed.

Lemma escapeHtml_char x : escapeHtml [x] = esc x.
Proof.
  destruct x as [[] [] [] [] [] [] [] []]; vm_compute; reflexivity.
Qed.

Lemma escapeHtml_flat_map s : escapeHtml s = flat_map esc s.
Proof.
  induction s as [|x s IH]; [reflexivity|].
  change (x :: s) with ([x] ++ s).
  rewrite escapeHtml_app, escapeHtml_char, IH. reflexivity.
Qed.

Lemma esc_shape x :
  (In (esc x) entities) \/ (esc x = [x] /\ ~ In x (amp :: specials)).
Proof.
  unfold esc.
  destruct (Ascii.eqb_spec x amp); [left; simpl; tauto|].
  destruct (Ascii.eqb_spec x lt); [left; simpl; tauto|].
  destruct (Ascii.eqb_spec x gt); [left; simpl; tauto|].
  destruct (Ascii.eqb_spec x dquote); [left; simpl; tauto|].
  destruct (Ascii.eqb_spec x squote); [left; simpl; tauto|].
  right. split; [reflexivity|]. simpl. intuition congruence.
Qed.

Lemma entities_no_specials e c : In e entities -> In c specials -> ~ In c e.
Proof.
  intros He Hc. simpl in He, Hc.
  repeat (destruct He as [<-|He]; [repeat (destruct Hc as [<-|Hc]; [vm_compute; intuition discriminate|]); destruct Hc|]).
  destruct He.
Qed.

Lemma entities_amp_only_first e i :
  In e entities -> nth_error e i = Some amp -> i = 0.
Proof.
  intros He Hi. simpl in He.
  repeat (destruct He as [<-|He];
    [do 7 (destruct i as [|i]; [reflexivity || discriminate Hi|]);
     destruct i; discriminate Hi|]).
  destruct He.
Qed.

Lemma starts_with_app p r : starts_with p (p ++ r) = true.
Proof.
  induction p as [|a p IH]; [reflexivity|].
  simpl. rewrite Ascii.eqb_refl. exact IH.
Qed.

Lemma flat_map_esc_no_specials s c :
  In c specials -> ~ In c (flat_map esc s).
Proof.
  intros Hc Hin. apply in_flat_map in Hin as [x [_ Hx]].
  destruct (esc_shape x) as [He | [Hx' Hnot]].
  - exact (entities_no_specials _ _ He Hc Hx).
  - rewrite Hx' in Hx. destruct Hx as [<-|[]]. apply Hnot. right. exact Hc.
Qed.

Lemma flat_map_esc_amp s i :
  nth_error (flat_map esc s) i = Some amp ->
  exists e, In e entities /\ starts_with e (drop i (flat_map esc s)) = true.
Proof.
  revert i. induction s as [|x s IH]; intros i Hi.
  - destruct i; discriminate Hi.
  - simpl in *. destruct (Nat.lt_ge_cases i (length (esc x))) as [Hlt|Hge].
    + rewrite nth_error_app1 in Hi by exact Hlt.
      destruct (esc_shape x) as [He | [Hx Hnot]].
      * pose proof (entities_amp_only_first _ _ He Hi) as ->.
        exists (esc x). split; [exact He|]. apply starts_with_app.
      * rewrite Hx in Hi. destruct i as [|[|]]; simpl in Hi; try discriminate.
        injection Hi as ->. exfalso. apply Hnot. left. reflexivity.
    + rewrite nth_error_app2 in Hi by exact Hge.
      destruct (IH _ Hi) as [e [He Hs]]. exists e. split; [exact He|].
      rewrite drop_app_ge by exact Hge. exact Hs.
Qed.

(** C9: for every input, the output of [escapeHtml] holds no
    less-than sign, greater-than sign, double quote or single quote, and
    every ampersand of the output starts one of the five entities
    [&amp;], [&lt;], [&gt;], [&quot;], [&#039;]. *)
Theorem escapeHtml_safe (s : list ascii) :
  (forall c, In c [lt; gt; dquote; squote] -> ~ In c (escapeHtml s)) /\
  (forall i, nth_error (escapeHtml s) i = Some amp ->
     exists e, In e entities /\ starts_with e (drop i (escapeHtml s)) = true).
Proof.
  rewrite escapeHtml_flat_map. split.
  - intros c Hc. apply flat_map_esc_no_specials. exact Hc.
  - apply flat_map_esc_amp.
Qed.

End UtilsProofs.

(** ** The worker transport and the boot loop *)
Module WasmProofs.
Import JsString Wasm.

(** A call in flight before a [terminateWorker]: the reference run
    used below.  [sendMessage] posts request 0 on a ready worker. *)
Lemma sendMessage_posts_0 :
  snd (sendMessage (mkW true true 0 ∅ ∅ : wstate nat)) = SendPosted 0.
Proof. reflexivity. Qed.

(** C2 (the claim as stated fails): after a call is posted, request 0
    is still in the pending table after [terminateWorker], and its
    promise is neither resolved nor rejected. *)
Lemma terminateWorker_keeps_pending_cex :
  let st := terminateWorker (fst (sendMessage (mkW true true 0 ∅ ∅ : wstate nat))) in
  worker st = false /\ 0 ∈ pendingRequests st /\ promises st !! 0 = Some PPending.
Proof.
  cbv zeta. simpl. split; [reflexivity|]. split.
  - set_solver.
  - rewrite lookup_insert_eq. reflexivity.
Qed.

(** C2 (amended): [terminateWorker] terminates the worker and clears
    [wasmReady] but leaves the pending-request table and the promises of
    the calls in flight untouched: none of them is rejected. *)
Theorem terminateWorker_leaves_pending {R : Type} (st : wstate R) :
  worker (terminateWorker st) = false /\
  wasmReady (terminateWorker st) = (wasmReady st && negb (worker st)) /\
  pendingRequests (terminateWorker st) = pendingRequests st /\
  promises (terminateWorker st) = promises st.
Proof.
  destruct st as [w rdy mid pend prom]; unfold terminateWorker; simpl.
  destruct w, rdy; repeat split; reflexivity.
Qed.










End WasmProofs.

(** ** Account hierarchy colouring *)
Module DecorProofs.
Import JsString Decor.

Lemma deco_parts_cons2 (part p' : list ascii) (rest : list (list ascii)) (i pos : nat) :
  deco_parts (part :: p' :: rest) i pos =
    (pos, pos + length part, nth (Nat.min i (length accountDecorations - 1)) accountDecorations EmptyString)
    :: (pos + length part, S (pos + length part), colonDecoration)
    :: deco_parts (p' :: rest) (S i) (S (pos + length part)).
Proof. reflexivity. Qed.

Lemma deco_parts_segment (parts : list (list ascii)) :
  forall i pos k, k < length parts ->
  exists a b, nth_error (deco_parts parts i pos) (2 * k) =
              Some (a, b, nth (Nat.min (i + k) 4) accountDecorations EmptyString).
Proof.
  induction parts as [|part rest IH]; intros i pos k Hk; simpl in Hk; [lia|].
  destruct k as [|k].
  - simpl. rewrite Nat.add_0_r. eexists _, _. reflexivity.
  - destruct rest as [|p' rest']; simpl in Hk; [lia|].
    replace (2 * S k) with (S (S (2 * k))) by lia.
    destruct (IH (S i) (S (pos + length part)) k ltac:(simpl; lia)) as (a & b & H).
    exists a, b. rewrite deco_parts_cons2. cbn [nth_error]. rewrite H.
    replace (S i + k) with (i + S k) by lia. reflexivity.
Qed.

Lemma deco_parts_colon (parts : list (list ascii)) :
  forall i pos k, S k < length parts ->
  exists a, nth_error (deco_parts parts i pos) (S (2 * k)) = Some (a, S a, colonDecoration).
Proof.
  induction parts as [|part rest IH]; intros i pos k Hk; simpl in Hk; [lia|].
  destruct rest as [|p' rest']; simpl in Hk; [lia|].
  destruct k as [|k].
  - eexists. reflexivity.
  - replace (S (2 * S k)) with (S (S (S (2 * k)))) by lia.
    destruct (IH (S i) (S (pos + length part)) k ltac:(simpl; lia)) as (a & H).
    exists a. rewrite deco_parts_cons2. cbn [nth_error]. exact H.
Qed.

Lemma format_parts_concat (parts : list (list ascii)) :
  forall i n, n = i + length parts ->
  format_parts parts i =
    concat (map (fun kp => part_html (nth (Nat.min (fst kp) 4) tw_colors []) (snd kp) ++
                           (if S (fst kp) <? n then separator_html else []))
                (combine (seq i (length parts)) parts)).
Proof.
  induction parts as [|part rest IH]; intros i n Hn; [reflexivity|].
  change (format_parts (part :: rest) i) with
    (part_html (nth (Nat.min i 4) tw_colors []) part ++
     (match rest with [] => [] | _ :: _ => separator_html end) ++ format_parts rest (S i)).
  change (combine (seq i (length (part :: rest))) (part :: rest)) with
    ((i, part) :: combine (seq (S i) (length rest)) rest).
  cbn [map concat fst snd].
  rewrite (IH (S i) n) by (simpl in Hn; lia).
  rewrite <- app_assoc. f_equal. f_equal.
  destruct rest as [|p' rest']; simpl in Hn.
  - replace (S i <? n) with false by (symmetry; apply Nat.ltb_ge; lia). reflexivity.
  - replace (S i <? n) with true by (symmetry; apply Nat.ltb_lt; lia). reflexivity.
Qed.

(** C7: in the editor, the match [Assets:Bank:Checking] is decorated
    with the first three palette styles on its three segments and the
    muted colon style on both colons, four pairwise distinct styles;
    [formatAccount] gives the three segments the first three palette
    classes and both colons the muted [text-white/50] class.  In
    general, segment [k] of an account gets palette entry [min k 4], so
    every segment at depth 4 or more gets the last entry, and every
    colon gets the colon style. *)
Theorem account_colouring :
  decorate_match 0 (chars "Assets:Bank:Checking") =
    [(0, 6, nth 0 accountDecorations EmptyString); (6, 7, colonDecoration);
     (7, 11, nth 1 accountDecorations EmptyString); (11, 12, colonDecoration);
     (12, 20, nth 2 accountDecorations EmptyString)] /\
  NoDup [nth 0 accountDecorations EmptyString; nth 1 accountDecorations EmptyString;
         nth 2 accountDecorations EmptyString; colonDecoration] /\
  formatAccount (chars "Assets:Bank:Checking") =
    part_html (nth 0 tw_colors []) (chars "Assets") ++ separator_html ++
    part_html (nth 1 tw_colors []) (chars "Bank") ++ separator_html ++
    part_html (nth 2 tw_colors []) (chars "Checking") /\
  NoDup [nth 0 tw_colors []; nth 1 tw_colors []; nth 2 tw_colors []; chars "text-white/50"] /\
  (forall (parts : list (list ascii)) (pos k : nat), k < length parts ->
     exists a b, nth_error (deco_parts parts 0 pos) (2 * k) =
                 Some (a, b, nth (Nat.min k 4) accountDecorations EmptyString)) /\
  (forall (parts : list (list ascii)) (pos k : nat), S k < length parts ->
     exists a, nth_error (deco_parts parts 0 pos) (S (2 * k)) = Some (a, S a, colonDecoration)) /\
  (forall (account : list ascii),
     formatAccount account =
       concat (map (fun kp => part_html (nth (Nat.min (fst kp) 4) tw_colors []) (snd kp) ++
                              (if S (fst kp) <? length (split ":" account) then separator_html else []))
                   (combine (seq 0 (length (split ":" account))) (split ":" account)))) /\
  (forall k, 4 <= k ->
     nth (Nat.min k 4) accountDecorations EmptyString = List.last accountDecorations EmptyString /\
     nth (Nat.min k 4) tw_colors [] = List.last tw_colors []).
Proof.
  split; [vm_compute; reflexivity|].
  split; [apply (bool_decide_unpack _); vm_compute; exact I|].
  split; [vm_compute; reflexivity|].
  split; [apply (bool_decide_unpack _); vm_compute; exact I|].
  split; [intros parts pos k Hk; exact (deco_parts_segment parts 0 pos k Hk)|].
  split; [intros parts pos k Hk; exact (deco_parts_colon parts 0 pos k Hk)|].
  split; [intros account; apply format_parts_concat; reflexivity|].
  intros k Hk. rewrite Nat.min_r by exact Hk. split; reflexivity.
Qed.

End DecorProofs.

(** ** Error-line annotation *)
Module ValidateProofs.
Import Validate.

Lemma collect_errors_lines (errs : list verror) :
  forall (acc : gset nat * gmap nat string) (n : nat),
  n ∈ (collect_errors errs acc).1 <->
  n ∈ acc.1 \/ (n <> 0 /\ exists m, In (mkErr (Some n) m) errs).
Proof.
  induction errs as [|[l msg] errs IH]; intros acc n; simpl.
  - split; [tauto|]. intros [H|[_ [m []]]]. exact H.
  - unfold collect_errors in *. simpl. rewrite IH.
    destruct l as [k|]; simpl.
    + destruct (decide (k = 0)) as [->|Hk]; simpl.
      * split; [intros [H|[Hn [m Hm]]]; [tauto|right; split; [exact Hn|exists m; right; exact Hm]]|].
        intros [H|[Hn [m [Hm|Hm]]]]; [tauto| |right; split; [exact Hn|exists m; exact Hm]].
        injection Hm as <- _. contradiction.
      * rewrite elem_of_union, elem_of_singleton. split.
        -- intros [[->|H]|[Hn [m Hm]]].
           ++ right. split; [exact Hk|]. exists msg. left. reflexivity.
           ++ left. exact H.
           ++ right. split; [exact Hn|]. exists m. right. exact Hm.
        -- intros [H|[Hn [m [Hm|Hm]]]].
           ++ left. right. exact H.
           ++ injection Hm as -> _. left. left. reflexivity.
           ++ right. split; [exact Hn|]. exists m. exact Hm.
    + split; [intros [H|[Hn [m Hm]]]; [tauto|right; split; [exact Hn|exists m; right; exact Hm]]|].
      intros [H|[Hn [m [Hm|Hm]]]]; [tauto|discriminate|right; split; [exact Hn|exists m; exact Hm]].
Qed.

Lemma collect_errors_dom (errs : list verror) :
  forall (acc : gset nat * gmap nat string),
  dom acc.2 = acc.1 -> dom (collect_errors errs acc).2 = (collect_errors errs acc).1.
Proof.
  induction errs as [|[l msg] errs IH]; intros acc Hacc; [exact Hacc|].
  unfold collect_errors in *. simpl. apply IH.
  destruct l as [k|]; simpl; [|exact Hacc].
  destruct (decide (k = 0)); simpl; [exact Hacc|].
  rewrite dom_insert_L, Hacc. reflexivity.
Qed.

Lemma collect_errors_messages (errs : list verror) :
  forall (acc : gset nat * gmap nat string) (n : nat) (m : string),
  (collect_errors errs acc).2 !! n = Some m ->
  acc.2 !! n = Some m \/ In (mkErr (Some n) m) errs.
Proof.
  induction errs as [|[l msg] errs IH]; intros acc n m H; [left; exact H|].
  unfold collect_errors in *. simpl in *.
  destruct (IH _ n m H) as [H'|H']; [|right; right; exact H'].
  destruct l as [k|]; simpl in H'; [|left; exact H'].
  destruct (decide (k = 0)); simpl in H'; [left; exact H'|].
  destruct (decide (n = k)) as [->|Hne].
  - rewrite lookup_insert_eq in H'. injection H' as <-. right. left. reflexivity.
  - rewrite lookup_insert_ne in H' by congruence. left. exact H'.
Qed.

Lemma highlight_marks (lineNumbers : gset nat) (msgs : gmap nat string)
    (doms : list line_dom) (k : nat) (el : line_dom) :
  highlightErrorLines lineNumbers msgs doms !! k = Some el ->
  cls_error el = bool_decide (S k ∈ lineNumbers).
Proof.
  unfold highlightErrorLines. rewrite list_lookup_imap.
  destruct (doms !! k) as [d|]; simpl; [|discriminate].
  intros H. injection H as <-. unfold highlight_line.
  destruct (decide (S k ∈ lineNumbers)) as [Hin|Hin].
  - rewrite bool_decide_eq_true_2 by exact Hin. reflexivity.
  - rewrite bool_decide_eq_false_2 by exact Hin. reflexivity.
Qed.

(** C6 (the claim as stated fails): on a document of 6 lines, an
    error reported on line 9 is not ignored by the error-annotation
    state: [errorLines] holds 9 next to 2 and 5. *)
Lemma error_line_beyond_document_kept_cex :
  let ui := liveValidate_apply
              (Some (mkVR false [mkErr (Some 2) "a"; mkErr (Some 5) "b"; mkErr (Some 9) "c"]))
              (mkVui ∅ ∅ StatusInitial (∅, ∅)) in
  9 ∈ errorLines ui /\ errorMessages ui !! 9 = Some "c"%string.
Proof. vm_compute. split; [set_solver|reflexivity]. Qed.

(** C6 (amended): for an invalid result, [errorLines] holds exactly the
    non-zero line numbers of the errors, also those beyond the end of the
    document, and [errorMessages] maps each of them to the message of one
    of its errors (the last one); an error without line or on line 0 is
    skipped.  With errors on lines 2 and 5 (and one on line 0) the state
    is exactly [{2, 5}] with their messages.  [highlightErrorLines] marks
    the [idx]-th rendered line exactly when [idx + 1] is in the set, so a
    line number of 0 or past the last line marks nothing and causes no
    fault: on 6 lines with errors on 2, 5 and 9 only lines 2 and 5 are
    marked. *)
Theorem error_annotation_state (errs : list verror) (ui : vui) :
  let ui' := liveValidate_apply (Some (mkVR false errs)) ui in
  (forall n, n ∈ errorLines ui' <-> n <> 0 /\ exists m, In (mkErr (Some n) m) errs) /\
  dom (errorMessages ui') = errorLines ui' /\
  (forall n m, errorMessages ui' !! n = Some m -> In (mkErr (Some n) m) errs) /\
  highlighted ui' = (errorLines ui', errorMessages ui') /\
  (forall (lineNumbers : gset nat) (msgs : gmap nat string) (doms : list line_dom) k el,
     highlightErrorLines lineNumbers msgs doms !! k = Some el ->
     cls_error el = bool_decide (S k ∈ lineNumbers)) /\
  (let v := liveValidate_apply
              (Some (mkVR false [mkErr (Some 2) "m2"; mkErr (Some 0) "m0"; mkErr (Some 5) "m5"]))
              ui in
   errorLines v = {[2; 5]} /\
   errorMessages v = <[5 := "m5"%string]> (<[2 := "m2"%string]> ∅)) /\
  map cls_error
    (highlightErrorLines {[2; 5; 9]} ∅ (replicate 6 (mkLine false None))) =
    [false; true; false; false; true; false].
Proof.
  cbv zeta. unfold liveValidate_apply. cbn [valid errors].
  pose proof (collect_errors_lines errs cleared) as Hl.
  pose proof (collect_errors_dom errs cleared eq_refl) as Hd.
  pose proof (collect_errors_messages errs cleared) as Hm.
  destruct (collect_errors errs cleared) as [ls ms]. simpl in Hl, Hd, Hm |- *.
  split; [|split; [|split; [|split; [|split]]]].
  - intros n. rewrite Hl.
    split; [intros [H'|H']; [set_solver|exact H']|intros H'; right; exact H'].
  - exact Hd.
  - intros n m H. destruct (Hm n m H) as [H'|H']; [discriminate|exact H'].
  - reflexivity.
  - apply highlight_marks.
  - vm_compute. split; [set_solver|reflexivity].
Qed.

End ValidateProofs.

(** ** [fetchWithRetry] *)
Module FetchProofs.
Import JsString Fetch.
Open Scope Z_scope.

(** C8 (the claim as stated fails): a 403 response whose
    [X-RateLimit-Remaining] header is [0] is a 4xx other than 429, yet
    it is not returned: the request is sent again, and the 200 of the
    second attempt is returned. *)
Lemma fetch_retries_rate_limited_403_cex :
  fetchWithRetry 3 1000 10000 (fun _ => 0)
    (fun attempt => match attempt with
                    | O => FResponse 403 (mkHeaders None None (Some (chars "0")))
                    | _ => FResponse 200 no_headers
                    end) =
  ([EvFetch; EvWait 1000; EvFetch], FReturn 200 1).
Proof. vm_compute. reflexivity. Qed.

(** C8 (amended): against a 500 and then a 200 without headers,
    [fetchWithRetry] fetches twice, waiting [baseDelay * 2^0] between the
    two.  On an attempt before the last, a 5xx, a 429, or a 403 whose
    [X-RateLimit-Remaining] parses to 0 is retried after
    [getRetryDelay]; every other 4xx is returned at once; on the last
    attempt any response is returned.  [getRetryDelay] takes the
    [Retry-After] seconds when the header parses; else, when
    [X-RateLimit-Reset] parses to a second [r] still in the future, the
    time to it plus one second, at most 60 s; else (no usable header)
    [baseDelay * 2^attempt]. *)
Theorem fetchWithRetry_policy (baseDelay : Z) (timeout : N) (now : nat -> Z) :
  fetchWithRetry 3 baseDelay timeout now
    (fun attempt => match attempt with
                    | O => FResponse 500 no_headers
                    | _ => FResponse 200 no_headers
                    end) =
  ([EvFetch; EvWait (baseDelay * 2 ^ 0); EvFetch], FReturn 200 1) /\
  (forall maxRetries outcome fuel attempt le status h,
     (attempt < maxRetries)%nat -> outcome attempt = FResponse status h ->
     400 <= status < 500 -> status <> 429 ->
     negb (rate_limit_exhausted h && (status =? 403)) = true ->
     fetch_loop maxRetries baseDelay timeout now outcome (S fuel) attempt le =
       ([EvFetch], FReturn status attempt)) /\
  (forall maxRetries outcome fuel attempt le status h,
     (attempt < maxRetries)%nat -> outcome attempt = FResponse status h ->
     (500 <= status \/ status = 429 \/ (status = 403 /\ rate_limit_exhausted h = true)) ->
     fetch_loop maxRetries baseDelay timeout now outcome (S fuel) attempt le =
       let '(evs, r) := fetch_loop maxRetries baseDelay timeout now outcome fuel (S attempt) le in
       (EvFetch :: EvWait (getRetryDelay h attempt baseDelay (now attempt)) :: evs, r)) /\
  (forall maxRetries outcome fuel le status h,
     outcome maxRetries = FResponse status h ->
     fetch_loop maxRetries baseDelay timeout now outcome (S fuel) maxRetries le =
       ([EvFetch], FReturn status maxRetries)) /\
  (forall h attempt t s n,
     retry_after h = Some s -> s <> [] -> parseInt10 s = Some n ->
     getRetryDelay h attempt baseDelay t = n * 1000) /\
  (forall h attempt t s r,
     match header_truthy (retry_after h) with
     | Some ra => parseInt10 ra = None
     | None => True
     end ->
     header_truthy (ratelimit_reset h) = Some s -> parseInt10 s = Some r -> t < r * 1000 ->
     getRetryDelay h attempt baseDelay t = Z.min (r * 1000 - t + 1000) 60000) /\
  (forall h attempt t,
     match header_truthy (retry_after h) with
     | Some ra => parseInt10 ra = None
     | None => True
     end ->
     match header_truthy (ratelimit_reset h) with
     | Some s => match parseInt10 s with Some r => r * 1000 <= t | None => True end
     | None => True
     end ->
     getRetryDelay h attempt baseDelay t = baseDelay * 2 ^ Z.of_nat attempt).
Proof.
  split; [reflexivity|]. split; [|split; [|split; [|split; [|split]]]].
  - intros mr outcome fuel attempt le status h Hlt Ho Hst H429 Hrl.
    simpl. rewrite Ho.
    apply negb_true_iff in Hrl. rewrite Hrl. cbn [andb].
    replace ((400 <=? status) && (status <? 500) && negb (status =? 429)) with true; [reflexivity|].
    symmetry. apply andb_true_intro. split; [apply andb_true_intro; split|].
    + apply Z.leb_le. lia.
    + apply Z.ltb_lt. lia.
    + apply negb_true_iff, Z.eqb_neq. exact H429.
  - intros mr outcome fuel attempt le status h Hlt Ho Hst.
    simpl. rewrite Ho.
    assert (Hm : (attempt <? mr)%nat = true) by (apply Nat.ltb_lt; exact Hlt).
    rewrite Hm.
    destruct Hst as [H5|[H4|[H3 Hrl]]].
    + rewrite andb_true_r.
      destruct (rate_limit_exhausted h && (status =? 403)); [reflexivity|].
      replace ((400 <=? status) && (status <? 500) && negb (status =? 429)) with false
        by (symmetry; destruct (Z.ltb_spec status 500); [lia|]; rewrite !andb_false_r; reflexivity).
      replace (500 <=? status) with true by (symmetry; apply Z.leb_le; lia). reflexivity.
    + subst status. rewrite andb_true_r.
      destruct (rate_limit_exhausted h && (429 =? 403)); [reflexivity|]. reflexivity.
    + subst status. rewrite Hrl. reflexivity.
  - intros mr outcome fuel le status h Ho. simpl. rewrite Ho, Nat.ltb_irrefl, andb_false_r.
    destruct ((400 <=? status) && (status <? 500) && negb (status =? 429)); [reflexivity|].
    rewrite andb_false_r. reflexivity.
  - intros h attempt t s n Hra Hne Hp. unfold getRetryDelay. rewrite Hra.
    destruct s as [|c s']; [congruence|]. cbn [header_truthy]. rewrite Hp. reflexivity.
  - intros h attempt t s r Hra Hr Hp Ht. unfold getRetryDelay.
    destruct (header_truthy (retry_after h)) as [ra|]; [rewrite Hra; simpl|];
      rewrite Hr, Hp, (proj2 (Z.ltb_lt _ _) Ht); reflexivity.
  - intros h attempt t Hra Hr. unfold getRetryDelay.
    destruct (header_truthy (retry_after h)) as [ra|]; [rewrite Hra; simpl|];
      (destruct (header_truthy (ratelimit_reset h)) as [s|]; [|reflexivity]);
      (destruct (parseInt10 s) as [r|]; [|reflexivity]);
      rewrite (proj2 (Z.ltb_ge _ _) Hr); reflexivity.
Qed.

Close Scope Z_scope.
End FetchProofs.

(** ** Overlapping invocations *)
Module AppProofs.
Import Wasm App.

(** Two overlapping invocations [c1] then [c2] on a ready engine, with
    the responses delivered in either order. *)
Lemma overlap_run {Res Ctx UI : Type} (apply : Ctx -> option Res -> UI -> UI)
    (a : app Res Ctx UI) (c1 c2 : Ctx) (r1 r2 : Res) :
  worker (net a) = true -> wasmReady (net a) = true ->
  ui (run apply [Invoke c1; Invoke c2;
                 Deliver (MsgResult (S (messageId (net a))) r2);
                 Deliver (MsgResult (messageId (net a)) r1)] a) =
    apply c1 (Some r1) (apply c2 (Some r2) (ui a)) /\
  ui (run apply [Invoke c1; Invoke c2;
                 Deliver (MsgResult (messageId (net a)) r1);
                 Deliver (MsgResult (S (messageId (net a))) r2)] a) =
    apply c2 (Some r2) (apply c1 (Some r1) (ui a)).
Proof.
  destruct a as [[w rdy mid pend prom] wt u]; simpl; intros -> ->.
  unfold run; simpl. unfold deliver, resume, settle; simpl.
  split;
    repeat (first
      [ rewrite lookup_insert_eq
      | rewrite lookup_insert_ne by lia
      | rewrite lookup_delete_ne by lia
      | match goal with
        | |- context [@decide ?P ?D] =>
            let Hn := fresh in
            destruct (@decide P D) as [_|Hn];
            [| exfalso; apply Hn; clear Hn;
               first [ apply elem_of_difference; split;
                       [set_solver | rewrite elem_of_singleton; lia]
                     | set_solver ] ]
        end ]; simpl);
    reflexivity.
Qed.

(** C1 (the claim as stated fails): query [Q1] (request 0) is started,
    then [Q2] (request 1); [Q2]'s answer arrives first and [Q1]'s last.
    The query output ends up showing [Q1]'s rows, not [Q2]'s. *)
Lemma stale_query_result_shown_cex :
  let apply := Query.runQuery_apply (fun _ : Z => []) in
  let r1 := Query.mkQR None (Some [1%Z]) (Some ["a"%string]) in
  let r2 := Query.mkQR None (Some [2%Z]) (Some ["a"%string]) in
  let a := mkApp (mkW true true 0 ∅ ∅) ∅ (Query.mkQui None Query.OutUnchanged) in
  let fin := run apply [Invoke "q1"%string; Invoke "q2"%string;
                        Deliver (MsgResult 1 r2); Deliver (MsgResult 0 r1)] a in
  Query.queryOutput (ui fin) =
    Query.OutTable (Query.render_view (Query.mkStored [1%Z] ["a"%string] "q1") 0) /\
  Query.queryOutput (ui fin) <>
    Query.queryOutput (apply "q2"%string (Some r2) (ui a)).
Proof.
  vm_compute. split; [reflexivity|discriminate].
Qed.

(** C1 (amended): neither [runQuery] nor [liveValidate] checks whether
    a newer invocation started; each applies its own engine response when
    it arrives.  For two overlapping invocations the UI is the one of the
    response that arrives last, whichever invocation it belongs to: the
    continuations of both families overwrite every field they manage
    (query output and stored result; error lines, messages, status and
    highlighted lines), so the earlier arrival leaves no trace. *)
Theorem last_arrival_wins {Res Ctx UI : Type} (apply : Ctx -> option Res -> UI -> UI)
    (a : app Res Ctx UI) (c1 c2 : Ctx) (r1 r2 : Res)
    (Hworker : worker (net a) = true) (Hready : wasmReady (net a) = true) :
  ui (run apply [Invoke c1; Invoke c2;
                 Deliver (MsgResult (S (messageId (net a))) r2);
                 Deliver (MsgResult (messageId (net a)) r1)] a) =
    apply c1 (Some r1) (apply c2 (Some r2) (ui a)) /\
  ui (run apply [Invoke c1; Invoke c2;
                 Deliver (MsgResult (messageId (net a)) r1);
                 Deliver (MsgResult (S (messageId (net a))) r2)] a) =
    apply c2 (Some r2) (apply c1 (Some r1) (ui a)) /\
  (forall (Row : Type) (row_keys : Row -> list string) el (r : Query.query_result Row)
          (u u' : Query.qui Row),
     Query.runQuery_apply row_keys el (Some r) u = Query.runQuery_apply row_keys el (Some r) u') /\
  (forall (r : Validate.validation_result) (u u' : Validate.vui),
     Validate.liveValidate_apply (Some r) u = Validate.liveValidate_apply (Some r) u').
Proof.
  destruct (overlap_run apply a c1 c2 r1 r2 Hworker Hready) as [H1 H2].
  split; [exact H1|]. split; [exact H2|]. split.
  - intros Row row_keys el r u u'. unfold Query.runQuery_apply.
    destruct (Query.truthy_string (Query.q_error r)); [reflexivity|].
    destruct (Query.q_rows r) as [[|row0 rs]|]; reflexivity.
  - intros r u u'. unfold Validate.liveValidate_apply.
    destruct (Validate.valid r); [reflexivity|].
    destruct (Validate.collect_errors _ _); reflexivity.
Qed.

(** A run of C1 on the query family of the reference run above. *)
Lemma last_arrival_wins_witness :
  let apply := Query.runQuery_apply (fun _ : Z => []) in
  let r1 := Query.mkQR None (Some [1%Z]) (Some ["a"%string]) in
  let r2 := Query.mkQR None (Some [2%Z]) (Some ["a"%string]) in
  let a := mkApp (mkW true true 0 ∅ ∅) ∅ (Query.mkQui None Query.OutUnchanged) in
  ui (run apply [Invoke "q1"%string; Invoke "q2"%string;
                 Deliver (MsgResult 1 r2); Deliver (MsgResult 0 r1)] a) =
    apply "q1"%string (Some r1) (apply "q2"%string (Some r2) (ui a)).
Proof.
  cbv zeta.
  exact (proj1 (last_arrival_wins (Query.runQuery_apply (fun _ : Z => []))
     (mkApp (mkW true true 0 ∅ ∅) ∅ (Query.mkQui None Query.OutUnchanged))
     "q1"%string "q2"%string
     (Query.mkQR None (Some [1%Z]) (Some ["a"%string]))
     (Query.mkQR None (Some [2%Z]) (Some ["a"%string])) eq_refl eq_refl)).
Defined.

End AppProofs.

(** ** Account-path autocomplete *)
Module AutocompleteProofs.
Import JsString Autocomplete.

(** C10: the account autocomplete keeps the first 10 accounts whose
    lower-cased form contains the lower-cased filter, so it never holds
    more than 10 candidates; it closes the dropdown when none matches and
    opens it, with the first item selected, otherwise. *)
Theorem showAccountAutocomplete_at_most_10
    (accounts : list (list ascii)) (filter_ : list ascii) (pos : nat) (st : ac_state) :
  let st' := showAccountAutocomplete accounts filter_ pos st in
  items st' = firstn 10 (List.filter (fun a => includes (toLowerCase a) (toLowerCase filter_)) accounts) /\
  length (items st') <= 10 /\
  Forall (fun a => In a accounts /\ includes (toLowerCase a) (toLowerCase filter_) = true)
         (items st') /\
  (items st' = [] -> active st' = false /\ hidden st' = true) /\
  (items st' <> [] -> active st' = true /\ hidden st' = false /\ selectedIndex st' = 0%Z).
Proof.
  cbv zeta. unfold showAccountAutocomplete, account_matches.
  remember (firstn 10 (List.filter (fun a => includes (toLowerCase a) (toLowerCase filter_))
                         accounts)) as its eqn:Hits.
  assert (Hlen : length its <= 10) by (subst its; apply firstn_le_length).
  assert (Hall : Forall (fun a => In a accounts /\
                   includes (toLowerCase a) (toLowerCase filter_) = true) its).
  { apply List.Forall_forall. intros a Ha.
    assert (Hf : In a (List.filter (fun a => includes (toLowerCase a) (toLowerCase filter_)) accounts)).
    { rewrite <- (firstn_skipn 10). apply in_or_app. left. subst its. exact Ha. }
    apply filter_In in Hf. exact Hf. }
  destruct its as [|a rest]; simpl.
  - split; [reflexivity|]. split; [simpl; lia|].
    split; [constructor|]. split; [intros _; split; reflexivity|].
    intros H; contradiction.
  - split; [reflexivity|]. split; [exact Hlen|]. split; [exact Hall|].
    split; [discriminate|]. intros _. split; [reflexivity|]. split; reflexivity.
Qed.

End AutocompleteProofs.

(** ** The query paginator *)
Module QueryProofs.
Import Query.
Open Scope Z_scope.

Lemma math_ceil_div_100 n : 0 <= n -> math_ceil_div n QUERY_PAGE_SIZE = (n + 99) / 100.
Proof.
  intros Hn. unfold math_ceil_div, QUERY_PAGE_SIZE.
  pose proof (Z.div_mod (n + 99) 100 ltac:(lia)).
  pose proof (Z.mod_pos_bound (n + 99) 100 ltac:(lia)).
  pose proof (Z.div_mod (- n) 100 ltac:(lia)).
  pose proof (Z.mod_pos_bound (- n) 100 ltac:(lia)).
  lia.
Qed.

(** C4: with a stored result, [goToQueryPage n] leaves the whole UI
    state (stored result and displayed output) unchanged when [n < 0] or
    [n >= ceil(rows.length / 100)], and renders page [n] otherwise. *)
Theorem goToQueryPage_out_of_bounds {Row : Type} (ui : qui Row) (r : stored Row) (n : Z)
    (Hstored : currentQueryResult ui = Some r) :
  let totalPages := math_ceil_div (Z.of_nat (length (rows r))) QUERY_PAGE_SIZE in
  ((n < 0 \/ n >= totalPages) -> goToQueryPage n ui = ui) /\
  (0 <= n < totalPages -> goToQueryPage n ui = renderQueryPage n ui /\
                          queryOutput (goToQueryPage n ui) = OutTable (render_view r n)).
Proof.
  cbv zeta. unfold goToQueryPage, renderQueryPage. rewrite Hstored. split.
  - intros H. destruct (Z.ltb_spec n 0); [reflexivity|].
    destruct (Z.leb_spec (math_ceil_div (Z.of_nat (length (rows r))) QUERY_PAGE_SIZE) n);
      [reflexivity | lia].
  - intros H. destruct (Z.ltb_spec n 0); [lia|].
    destruct (Z.leb_spec (math_ceil_div (Z.of_nat (length (rows r))) QUERY_PAGE_SIZE) n);
      [lia|]. simpl. split; reflexivity.
Qed.

Lemma js_slice_in_range {A : Type} (l : list A) (s e : Z) :
  0 <= s -> s <= e -> e <= Z.of_nat (length l) ->
  js_slice l s e = firstn (Z.to_nat (e - s)) (skipn (Z.to_nat s) l).
Proof.
  intros H1 H2 H3. unfold js_slice.
  destruct (Z.ltb_spec s 0); [lia|]. destruct (Z.ltb_spec e 0); [lia|].
  rewrite (Z.min_l s), (Z.min_l e) by lia. reflexivity.
Qed.

Lemma firstn_min_length {A : Type} (n : nat) (l : list A) :
  firstn (Nat.min n (length l)) l = firstn n l.
Proof.
  rewrite <- firstn_firstn, (firstn_all l). reflexivity.
Qed.

Lemma render_view_rows {Row : Type} (r : stored Row) (page : Z) :
  0 <= page -> page * QUERY_PAGE_SIZE <= Z.of_nat (length (rows r)) ->
  pv_rows (render_view r page) =
    firstn 100 (skipn (Z.to_nat (page * 100)) (rows r)).
Proof.
  intros H1 H2. unfold render_view, QUERY_PAGE_SIZE in *. simpl.
  rewrite js_slice_in_range by lia.
  rewrite <- (firstn_min_length 100%nat). f_equal.
  rewrite length_skipn. lia.
Qed.

(** C5: with 250 stored rows, page 0 shows rows 1 to 100 and page 2
    rows 201 to 250, with 3 pages in the pager; every rendered page is
    the slice [rows[page*100 .. page*100+100)] of the stored rows; and a
    new non-empty result is stored and rendered at page 0. *)
Theorem query_pages_of_250_rows :
  let r := mkStored (map Z.of_nat (seq 1 250)) [] EmptyString in
  (pv_rows (render_view r 0) = map Z.of_nat (seq 1 100) /\
   pv_from (render_view r 0) = 1 /\ pv_to (render_view r 0) = 100) /\
  (pv_rows (render_view r 2) = map Z.of_nat (seq 201 50) /\
   pv_from (render_view r 2) = 201 /\ pv_to (render_view r 2) = 250) /\
  math_ceil_div (Z.of_nat (length (rows r))) QUERY_PAGE_SIZE = 3 /\
  pv_pager (render_view r 0) = Some (1, 3, true, false, -1, 1) /\
  pv_pager (render_view r 2) = Some (3, 3, false, true, 1, 3) /\
  (forall (Row : Type) (r : stored Row) (page : Z),
     0 <= page -> page * QUERY_PAGE_SIZE <= Z.of_nat (length (rows r)) ->
     pv_rows (render_view r page) = firstn 100 (skipn (Z.to_nat (page * 100)) (rows r))) /\
  (forall (Row : Type) (row_keys : Row -> list string) (el : string)
          (res : query_result Row) (ui : qui Row) (rs : list Row),
     truthy_string (q_error res) = false -> q_rows res = Some rs -> rs <> [] ->
     exists hs,
       runQuery_apply row_keys el (Some res) ui =
         mkQui (Some (mkStored rs hs el)) (OutTable (render_view (mkStored rs hs el) 0))).
Proof.
  cbv zeta. split; [vm_compute; auto|]. split; [vm_compute; auto|].
  split; [vm_compute; reflexivity|]. split; [vm_compute; reflexivity|].
  split; [vm_compute; reflexivity|]. split.
  - intros Row r page. apply render_view_rows.
  - intros Row row_keys el res ui rs Herr Hrows Hne.
    unfold runQuery_apply. rewrite Herr, Hrows.
    destruct rs as [|row0 rs']; [congruence|].
    eexists. reflexivity.
Qed.

(** A run of C4 on a stored result of 3 rows (one page): page 1 and
    page -1 are ignored, page 0 is rendered. *)
Lemma goToQueryPage_out_of_bounds_witness :
  let ui := mkQui (Some (mkStored [1; 2; 3] [] EmptyString)) OutUnchanged in
  goToQueryPage 1 ui = ui /\ goToQueryPage (-1) ui = ui /\
  goToQueryPage 0 ui = renderQueryPage 0 ui.
Proof.
  cbv zeta.
  pose proof (goToQueryPage_out_of_bounds
                (mkQui (Some (mkStored [1; 2; 3] [] EmptyString)) OutUnchanged)
                (mkStored [1; 2; 3] [] EmptyString) 1 eq_refl) as [H1 _].
  pose proof (goToQueryPage_out_of_bounds
                (mkQui (Some (mkStored [1; 2; 3] [] EmptyString)) OutUnchanged)
                (mkStored [1; 2; 3] [] EmptyString) (-1) eq_refl) as [H2 _].
  pose proof (goToQueryPage_out_of_bounds
                (mkQui (Some (mkStored [1; 2; 3] [] EmptyString)) OutUnchanged)
                (mkStored [1; 2; 3] [] EmptyString) 0 eq_refl) as [_ H3].
  split; [apply H1; right; vm_compute; discriminate|].
  split; [apply H2; left; reflexivity|].
  apply H3. vm_compute. split; [discriminate|reflexivity].
Defined.

(** A run of C5 on a concrete engine answer of 2 rows. *)
Lemma query_pages_of_250_rows_witness :
  exists hs,
    runQuery_apply (fun _ : Z => [])%list "1.0" (Some (mkQR None (Some [7; 8]) (Some ["n"])))
      (mkQui None OutUnchanged) =
    mkQui (Some (mkStored [7; 8] hs "1.0")) (OutTable (render_view (mkStored [7; 8] hs "1.0") 0)).
Proof.
  destruct query_pages_of_250_rows as (_ & _ & _ & _ & _ & _ & H).
  apply (H Z (fun _ => []) "1.0" (mkQR None (Some [7; 8]) (Some ["n"]))
           (mkQui None OutUnchanged) [7; 8]); [reflexivity | reflexivity | discriminate].
Defined.

Close Scope Z_scope.
End QueryProofs.

Module RegexProofs.
Import JsString Regex.
Import SpecHelpers.

Lemma star_loop_sound (m1 : list ascii -> list ascii -> cont -> option (list ascii))
    (P : list ascii -> Prop)
    (Hm1 : forall b s k x, m1 b s k = Some x ->
       exists w s', s = w ++ s' /\ P w /\ k (rev w ++ b) s' = Some x)
    (Pstar : list ascii -> Prop)
    (H0 : Pstar [])
    (HS : forall w1 w2, P w1 -> Pstar w2 -> Pstar (w1 ++ w2)) :
  forall k n b s x, star_loop m1 k n b s = Some x ->
    exists w s', s = w ++ s' /\ Pstar w /\ k (rev w ++ b) s' = Some x.
Proof.
  intros k n. induction n as [|n IH]; intros b s x H; simpl in H.
  - exists [], s. auto.
  - destruct (m1 b s _) as [y|] eqn:E.
    + injection H as <-.
      apply Hm1 in E as (w1 & s1 & -> & HP & Hk).
      destruct (length s1 <? length (w1 ++ s1)); [|discriminate].
      apply IH in Hk as (w2 & s2 & -> & HP2 & Hk2).
      exists (w1 ++ w2), s2. split; [by rewrite app_assoc|]. split; [by apply HS|].
      rewrite rev_app_distr, <- app_assoc. exact Hk2.
    + exists [], s. auto.
Qed.

(** Every match the matcher reports is a word of the expression, and the
    continuation runs right after it. *)
Lemma m_sound (r : regex) : forall b s k x, m r b s k = Some x ->
  exists w s', s = w ++ s' /\ in_lang r w /\ k (rev w ++ b) s' = Some x.
Proof.
  induction r as [p|r1 IH1 r2 IH2|r1 IH1 r2 IH2|r1 IH1| | |];
    intros b s k x H; cbn [m] in H.
  - destruct s as [|c s']; [discriminate|].
    destruct (p c) eqn:Hp; [|discriminate].
    exists [c], s'. split; [reflexivity|]. split; [by constructor|exact H].
  - apply IH1 in H as (w1 & s1 & -> & H1 & Hk).
    apply IH2 in Hk as (w2 & s2 & -> & H2 & Hk).
    exists (w1 ++ w2), s2. split; [by rewrite app_assoc|]. split; [by constructor|].
    rewrite rev_app_distr, <- app_assoc. exact Hk.
  - destruct (m r1 b s k) as [y|] eqn:E.
    + injection H as <-. apply IH1 in E as (w & s' & -> & Hw & Hk).
      exists w, s'. split; [reflexivity|]. split; [by apply LAltL|exact Hk].
    + apply IH2 in H as (w & s' & -> & Hw & Hk).
      exists w, s'. split; [reflexivity|]. split; [by apply LAltR|exact Hk].
  - eapply (star_loop_sound (m r1) (in_lang r1) IH1 (in_lang (RStar r1))) in H;
      [exact H|constructor|by constructor].
  - exists [], s. split; [reflexivity|]. split; [constructor|exact H].
  - destruct b; [|discriminate]. exists [], s. split; [reflexivity|]. split; [constructor|exact H].
  - exists [], s. split; [reflexivity|]. split; [constructor|].
    destruct b as [|c b]; [exact H|]. destruct (line_terminator c); [exact H|discriminate].
Qed.

Lemma match_at_sound r b s s' :
  match_at r b s = Some s' -> exists w, s = w ++ s' /\ in_lang r w.
Proof.
  unfold match_at. intros H. apply m_sound in H as (w & s2 & -> & Hw & Hk).
  injection Hk as <-. eauto.
Qed.

Lemma matches_sorted_weaken p p' lim l :
  p' <= p -> matches_sorted p lim l -> matches_sorted p' lim l.
Proof. destruct l as [|[i w] l]; simpl; [auto|]. intros ? (? & ? & ?). split; [lia|auto]. Qed.

Lemma matches_sorted_cast p p' lim lim' l :
  p' <= p -> lim = lim' -> matches_sorted p lim l -> matches_sorted p' lim' l.
Proof. intros ? <-. apply matches_sorted_weaken; lia. Qed.

Lemma scan_sound r : forall fuel b s,
  matches_sorted (length b) (length b + length s) (scan r fuel b s) /\
  Forall (fun mt => in_lang r mt.2) (scan r fuel b s).
Proof.
  induction fuel as [|f IH]; intros b s; simpl; [split; auto|].
  destruct (match_at r b s) as [s'|] eqn:E.
  - apply match_at_sound in E as (w0 & Hs & Hw0).
    assert (Hw : firstn (length s - length s') s = w0).
    { subst s. rewrite length_app, Nat.add_sub, firstn_app, Nat.sub_diag.
      simpl. rewrite app_nil_r. apply firstn_all. }
    rewrite Hw. destruct w0 as [|c0 w0'].
    + simpl in Hs. subst s'.
      destruct s as [|c s2].
      * simpl. split; [lia|]. constructor; [exact Hw0|constructor].
      * destruct (IH (c :: b) s2) as [H1 H2]. simpl in H1 |- *.
        split; [split; [lia|split; [lia|]]|].
        -- rewrite Nat.add_succ_r, Nat.add_0_r.
           eapply matches_sorted_weaken; [|exact H1]. lia.
        -- constructor; [exact Hw0|exact H2].
    + destruct (IH (rev (c0 :: w0') ++ b) s') as [H1 H2]. subst s.
      split; [|constructor; [exact Hw0|exact H2]].
      rewrite length_app, length_rev in H1. cbn [matches_sorted].
      rewrite length_app. split; [lia|split; [lia|]].
      revert H1. apply matches_sorted_cast; lia.
  - destruct s as [|c s2]; [simpl; split; auto|].
    destruct (IH (c :: b) s2) as [H1 H2]. simpl in H1 |- *.
    split; [|exact H2].
    rewrite Nat.add_succ_r. eapply matches_sorted_weaken; [|exact H1]. lia.
Qed.

(** A matcher whose continuation always succeeds succeeds on [r*]. *)
Lemma star_loop_total m1 k n b s :
  (forall b s, k b s <> None) -> star_loop m1 k n b s <> None.
Proof.
  intros Hk. destruct n as [|n]; simpl; [apply Hk|].
  destruct (m1 b s _); [discriminate|apply Hk].
Qed.

End RegexProofs.

Module AccountProofs.
Import JsString Regex Accounts RegexProofs.
Import SpecHelpers.

Lemma in_lang_star_class p w :
  in_lang (RStar (RClass p)) w -> Forall (fun c => p c = true) w.
Proof.
  remember (RStar (RClass p)) as r eqn:Er. intros H. revert Er.
  induction H; intros Er; try discriminate; [constructor|].
  injection Er as ->. inversion H; subst. simpl. constructor; auto.
Qed.

Lemma in_lang_plus_class p w :
  in_lang (RPlus (RClass p)) w -> w <> [] /\ Forall (fun c => p c = true) w.
Proof.
  intros H. inversion H as [|? ? w1 w2 Hc Hs| | | | | | |]; subst.
  inversion Hc; subst.
  split; [discriminate|]. simpl. constructor; [assumption|].
  by apply in_lang_star_class.
Qed.

Lemma in_lang_groups w :
  in_lang (RStar (RSeq (RClass (is_char ":"%char)) (RPlus (RClass acct_char)))) w ->
  exists segs, w = colon_segments segs /\
    Forall (fun seg => seg <> [] /\ Forall (fun c => acct_char c = true) seg) segs.
Proof.
  remember (RStar (RSeq (RClass (is_char ":"%char)) (RPlus (RClass acct_char)))) as r eqn:Er.
  intros H. revert Er. induction H; intros Er; try discriminate.
  - exists []. split; [reflexivity|constructor].
  - injection Er as ->. destruct (IHin_lang2 eq_refl) as (segs & -> & Hsegs).
    inversion H as [|? ? u1 u2 Hc Hp| | | | | | |]; subst.
    inversion Hc as [? ? Hcol| | | | | | | |]; subst.
    unfold is_char in Hcol. apply Ascii.eqb_eq in Hcol; subst.
    apply in_lang_plus_class in Hp as [Hne Hall].
    exists (u2 :: segs). split; [reflexivity|]. constructor; auto.
Qed.

Lemma acct_char_not_special c :
  acct_char c = true -> ~ In c (Utils.amp :: Utils.specials).
Proof.
  unfold acct_char, is_upper, is_lower, is_digit, in_range, is_char.
  intros H Hin. simpl in Hin.
  repeat (destruct Hin as [<-|Hin]; [vm_compute in H; discriminate|]). exact Hin.
Qed.

Lemma colon_not_special : ~ In ":"%char (Utils.amp :: Utils.specials).
Proof. simpl. intros Hin. repeat (destruct Hin as [Hin|Hin]; [vm_compute in Hin; discriminate|]). exact Hin. Qed.

Lemma esc_plain c : ~ In c (Utils.amp :: Utils.specials) -> Utils.esc c = [c].
Proof.
  intros H. unfold Utils.esc.
  repeat match goal with
  | |- context [Ascii.eqb c ?x] =>
      let E := fresh "E" in
      destruct (Ascii.eqb c x) eqn:E;
      [apply Ascii.eqb_eq in E; subst; exfalso; apply H; simpl; tauto|]
  end; reflexivity.
Qed.

Lemma escapeHtml_plain w :
  (forall c, In c w -> ~ In c (Utils.amp :: Utils.specials)) -> Utils.escapeHtml w = w.
Proof.
  intros H. rewrite UtilsProofs.escapeHtml_flat_map.
  induction w as [|c w IH]; [reflexivity|]. simpl.
  rewrite esc_plain by (apply H; left; reflexivity). simpl. f_equal.
  apply IH. intros x Hx. apply H. right. exact Hx.
Qed.

(** X1: every account [extractAccounts] finds is an uppercase letter,
    then characters of [[A-Za-z0-9-]], then one or more segments [:seg]
    with [seg] a non-empty run of [[A-Za-z0-9-]]; so it holds no
    character that [escapeHtml] changes, and the account autocomplete,
    which writes account names into its markup unescaped, shows them as
    they are. *)
Theorem extractAccounts_shape (source a : list ascii) :
  In a (extractAccounts source) ->
  (exists c first segs,
     a = c :: first ++ colon_segments segs /\ is_upper c = true /\
     Forall (fun x => acct_char x = true) first /\ segs <> [] /\
     Forall (fun seg => seg <> [] /\ Forall (fun x => acct_char x = true) seg) segs) /\
  Utils.escapeHtml a = a.
Proof.
  intros Hin.
  assert (Hl : in_lang accountRegex a).
  { unfold extractAccounts in Hin.
    destruct (scan_sound accountRegex (S (length source)) [] source) as [_ Hall].
    fold (matches accountRegex source) in Hall.
    assert (Hgen : forall (l : list (nat * list ascii)) (acc : list (list ascii)), In a (fold_left (fun acc mt => set_add mt.2 acc) l acc) ->
                     In a acc \/ exists i, In (i, a) l).
    { induction l as [|[i w] l IH]; intros acc H; simpl in H; [by left|].
      apply IH in H as [H|[j Hj]]; [|right; exists j; by right].
      unfold set_add in H. destruct (decide (w ∈ acc)); [by left|].
      apply in_app_or in H as [H|[<-|[]]]; [by left|right; exists i; by left]. }
    apply Hgen in Hin as [[]|[i Hi]].
    rewrite List.Forall_forall in Hall. exact (Hall _ Hi). }
  unfold accountRegex in Hl.
  inversion Hl as [|? ? w1 w2 Hc Hrest| | | | | | |]; subst.
  inversion Hc as [? c Hup| | | | | | | |]; subst.
  inversion Hrest as [|? ? w3 w4 Hstar Hplus| | | | | | |]; subst.
  apply in_lang_star_class in Hstar.
  inversion Hplus as [|? ? w5 w6 Hg Hgs| | | | | | |]; subst.
  assert (Hgroups : exists segs, w5 ++ w6 = colon_segments segs /\ segs <> [] /\
    Forall (fun seg => seg <> [] /\ Forall (fun x => acct_char x = true) seg) segs).
  { destruct (in_lang_groups (w5 ++ w6)) as (segs & E & Hs); [by constructor|].
    exists segs. split; [exact E|]. split; [|exact Hs].
    intros ->. inversion Hg as [|? ? u1 u2 Hcol Hp| | | | | | |]; subst.
    inversion Hcol; subst. discriminate E. }
  destruct Hgroups as (segs & Esegs & Hne & Hsegs).
  rewrite Esegs.
  split.
  - exists c, w3, segs. split; [reflexivity|]. auto.
  - apply escapeHtml_plain. intros x Hx.
    change ([c] ++ w3 ++ colon_segments segs) with ((c :: w3) ++ colon_segments segs) in Hx.
    apply in_app_or in Hx as [[<-|Hx]|Hx].
    + apply acct_char_not_special. unfold acct_char. rewrite Hup. reflexivity.
    + apply acct_char_not_special. rewrite List.Forall_forall in Hstar. auto.
    + unfold colon_segments in Hx. apply in_concat in Hx as (l & Hl2 & Hx).
      apply in_map_iff in Hl2 as (seg & <- & Hseg).
      destruct Hx as [<-|Hx]; [exact colon_not_special|].
      rewrite List.Forall_forall in Hsegs. destruct (Hsegs seg Hseg) as [_ Hall].
      rewrite List.Forall_forall in Hall. apply acct_char_not_special. auto.
Qed.

Lemma extractAccounts_shape_witness :
  In (chars "Assets:Bank") (extractAccounts (chars "x Assets:Bank y")) /\
  Utils.escapeHtml (chars "Assets:Bank") = chars "Assets:Bank".
Proof.
  split; [vm_compute; left; reflexivity|].
  apply (extractAccounts_shape (chars "x Assets:Bank y") (chars "Assets:Bank")).
  vm_compute. left. reflexivity.
Defined.

End AccountProofs.

Module DecorationProofs.
Import JsString Regex Accounts Decor RegexProofs.
Import SpecHelpers.

Lemma sorted_from_mono p p' l : p' <= p -> sorted_from p l -> sorted_from p' l.
Proof. destruct l as [|d l]; simpl; [auto|]. intros ? (? & ? & ?). split; [lia|auto]. Qed.

Lemma sorted_from_app l1 : forall p q l2,
  sorted_from p l1 -> p <= q -> Forall (fun d => d.1.2 <= q) l1 ->
  sorted_from q l2 -> sorted_from p (l1 ++ l2).
Proof.
  induction l1 as [|d l1 IH]; intros p q l2 H1 Hpq Hends H2; simpl.
  - eapply sorted_from_mono; eauto.
  - simpl in H1. destruct H1 as (? & ? & H1). inversion Hends; subst.
    split; [lia|split; [lia|]]. eapply IH; eauto.
Qed.

Lemma split_nonempty c w : split c w <> [].
Proof.
  destruct w as [|x w]; simpl; [discriminate|].
  destruct (Ascii.eqb x c); [discriminate|]. destruct (split c w); discriminate.
Qed.

Lemma parts_len_split c w : parts_len (split c w) = length w.
Proof.
  induction w as [|x w IH]; [reflexivity|]. simpl.
  destruct (Ascii.eqb x c).
  - pose proof (split_nonempty c w) as Hne.
    destruct (split c w) as [|q qs]; [congruence|]. simpl. rewrite <- IH. reflexivity.
  - pose proof (split_nonempty c w) as Hne.
    destruct (split c w) as [|q qs] eqn:E; [congruence|].
    destruct qs as [|q' qs]; simpl in IH |- *; lia.
Qed.

Lemma deco_parts_sorted parts : forall i pos,
  sorted_from pos (deco_parts parts i pos) /\
  Forall (fun d => d.1.2 <= pos + parts_len parts) (deco_parts parts i pos).
Proof.
  induction parts as [|part rest IH]; intros i pos; [simpl; auto|].
  destruct rest as [|p' rest].
  - simpl. split; [lia|]. constructor; [simpl; lia|constructor].
  - rewrite DecorProofs.deco_parts_cons2.
    destruct (IH (S i) (S (pos + length part))) as [Hs He].
    split.
    + simpl. split; [lia|split; [lia|split; [lia|split; [lia|exact Hs]]]].
    + change (parts_len (part :: p' :: rest)) with (length part + S (parts_len (p' :: rest))).
      constructor; [simpl; lia|constructor; [simpl; lia|]].
      revert He. apply List.Forall_impl. intros d Hd. lia.
Qed.

Lemma decorate_match_sorted pos w :
  sorted_from pos (decorate_match pos w) /\
  Forall (fun d => d.1.2 <= pos + length w) (decorate_match pos w).
Proof.
  unfold decorate_match. rewrite <- (parts_len_split ":"%char w). apply deco_parts_sorted.
Qed.

Lemma decorate_matches_sorted from lim l : forall p,
  matches_sorted p lim l ->
  sorted_from (from + p) (flat_map (fun '(idx, w) => decorate_match (from + idx) w) l) /\
  Forall (fun d => d.1.2 <= from + lim)
    (flat_map (fun '(idx, w) => decorate_match (from + idx) w) l).
Proof.
  induction l as [|[i w] l IH]; intros p Hl; simpl; [auto|].
  simpl in Hl. destruct Hl as (Hpi & Hlim & Hl).
  destruct (IH _ Hl) as [Hs He].
  destruct (decorate_match_sorted (from + i) w) as [Hs1 He1].
  split.
  - apply (sorted_from_app _ (from + p) (from + i + length w)).
    + eapply sorted_from_mono; [|exact Hs1]. lia.
    + lia.
    + exact He1.
    + replace (from + i + length w) with (from + (i + length w)) by lia. exact Hs.
  - apply Forall_app. split; [|exact He].
    revert He1. apply List.Forall_impl. intros d Hd. lia.
Qed.

Lemma matches_empty : matches accountRegex [] = [].
Proof. reflexivity. Qed.

(** X2: when the visible ranges come in document order without
    overlapping, [buildDecorations] hands its decorations to
    [RangeSetBuilder.add] sorted by their start (so the builder, which
    throws on a range added before the previous one, never throws), each
    one ends after it starts and at or before the next one starts, and
    all of them lie within the document. *)
Theorem buildDecorations_sorted (doc : list ascii) (vr : list (nat * nat)) :
  ranges_sorted 0 vr ->
  sorted_from 0 (buildDecorations doc vr) /\
  Forall (fun d => d.1.2 <= length doc) (buildDecorations doc vr).
Proof.
  generalize 0. induction vr as [|[f t] vr IH]; intros p Hvr; [simpl; auto|].
  simpl in Hvr. destruct Hvr as (Hpf & Hft & Hvr).
  destruct (IH t Hvr) as [Hs He].
  unfold buildDecorations. cbn [flat_map]. fold (buildDecorations doc vr).
  set (text := firstn (t - f) (skipn f doc)).
  destruct (scan_sound accountRegex (S (length text)) [] text) as [Hm _].
  fold (matches accountRegex text) in Hm. simpl in Hm.
  destruct (decorate_matches_sorted f (length text) (matches accountRegex text) 0 Hm)
    as [Hs1 He1].
  rewrite Nat.add_0_r in Hs1.
  assert (Htext : f + length text <= t).
  { unfold text. rewrite length_firstn. lia. }
  split.
  - apply (sorted_from_app _ p t).
    + eapply sorted_from_mono; [|exact Hs1]. lia.
    + lia.
    + revert He1. apply List.Forall_impl. intros d Hd. lia.
    + exact Hs.
  - apply Forall_app. split; [|exact He].
    destruct (decide (text = [])) as [Et|Hne].
    + rewrite Et, matches_empty. constructor.
    + assert (Hf : f + length text <= length doc).
      { unfold text. rewrite length_firstn, length_skipn.
        destruct (le_lt_dec (length doc) f) as [Hle|]; [|lia].
        exfalso. apply Hne. unfold text. rewrite skipn_all2 by exact Hle.
        apply firstn_nil. }
      revert He1. apply List.Forall_impl. intros d Hd. lia.
Qed.

Lemma buildDecorations_sorted_witness :
  ranges_sorted 0 [(0, 12); (20, 40)] /\
  sorted_from 0 (buildDecorations (chars "x Assets:Bank and Expenses:Food:Lunch here") [(0, 12); (20, 40)]) /\
  Forall (fun d => d.1.2 <= length (chars "x Assets:Bank and Expenses:Food:Lunch here"))
    (buildDecorations (chars "x Assets:Bank and Expenses:Food:Lunch here") [(0, 12); (20, 40)]).
Proof.
  split; [simpl; lia|].
  apply buildDecorations_sorted. simpl; lia.
Defined.

End DecorationProofs.

Module TriggerProofs.
Import JsString Regex Autocomplete EditorKeys RegexProofs.
Import SpecHelpers.

Lemma nth_error_lookup {A} (l : list A) i : nth_error l i = l !! i.
Proof. revert i. induction l as [|x l IH]; intros [|i]; simpl; auto. Qed.

Lemma trigger_scan_not_begin fuel : forall b s, b <> [] -> scan triggerRegex fuel b s = [].
Proof.
  induction fuel as [|f IH]; intros b s Hb; [reflexivity|].
  destruct b as [|x b]; [congruence|].
  cbn [scan]. unfold match_at, triggerRegex. cbn [m].
  destruct s as [|c s]; [reflexivity|]. apply IH. discriminate.
Qed.

(** [/^[A-Z][A-Za-z0-9-]*:?/.test(w)] holds exactly when [w] starts
    with an uppercase letter. *)
Lemma test_triggerRegex w :
  test triggerRegex w = match w with [] => false | c :: _ => is_upper c end.
Proof.
  destruct w as [|c w]; [reflexivity|].
  unfold test, matches. cbn [scan].
  destruct (match_at triggerRegex [] (c :: w)) as [s'|] eqn:E.
  - unfold match_at, triggerRegex in E. cbn [m] in E.
    destruct (is_upper c); [reflexivity|discriminate].
  - rewrite trigger_scan_not_begin by discriminate.
    unfold match_at, triggerRegex in E. cbn [m] in E.
    destruct (is_upper c); [exfalso|reflexivity].
    revert E. apply star_loop_total.
    intros b s. cbn [m]. destruct s as [|x s]; simpl; [discriminate|].
    destruct (is_char ":"%char x); discriminate.
Qed.

Lemma wordStart_from_spec lineText n :
  n <= length lineText ->
  let r := wordStart_from lineText n in
  r <= n /\
  (forall j, r <= j < n -> exists c, lineText !! j = Some c /\ js_space c = false) /\
  (r = 0 \/ exists c, lineText !! (r - 1) = Some c /\ js_space c = true).
Proof.
  induction n as [|n IH]; intros Hn; cbn zeta; simpl.
  - split; [lia|]. split; [intros; lia|]. left; reflexivity.
  - rewrite nth_error_lookup.
    destruct (lineText !! n) as [c|] eqn:Ec.
    2:{ apply lookup_ge_None in Ec. lia. }
    destruct (js_space c) eqn:Hs.
    + split; [lia|]. split; [intros; lia|]. right. exists c.
      rewrite Nat.sub_succ, Nat.sub_0_r. auto.
    + destruct (IH ltac:(lia)) as (H1 & H2 & H3).
      split; [lia|]. split; [|exact H3].
      intros j Hj. destruct (decide (j = n)) as [->|]; [eauto|].
      apply H2. lia.
Qed.

(** X3: after a change with the cursor at column [colInLine] of its
    line, the autocomplete listener takes as the current word the text
    between the cursor and the previous whitespace of the line (or the
    line start), which holds no whitespace.  It opens the account
    dropdown, filtered by that word and anchored at its start, when the
    word has at least two characters and starts with an uppercase letter
    (no colon is required) and accounts are known; with no known account
    it leaves the state as it is; in every other case it hides the
    dropdown. *)
Theorem autocompleteUpdate_trigger (lineText : list ascii) (lineFrom colInLine : nat)
    (known : list (list ascii)) (st : ac_state) :
  colInLine <= length lineText ->
  let ws := wordStart_from lineText colInLine in
  let w := firstn (colInLine - ws) (skipn ws lineText) in
  ws <= colInLine /\ length w = colInLine - ws /\
  Forall (fun c => js_space c = false) w /\
  (ws = 0 \/ exists c, lineText !! (ws - 1) = Some c /\ js_space c = true) /\
  autocompleteUpdate lineText lineFrom colInLine known st =
    (if (2 <=? length w) && match w with [] => false | c :: _ => is_upper c end then
       match known with
       | [] => st
       | _ :: _ => showAccountAutocomplete known w (lineFrom + ws) st
       end
     else hideAccountAutocomplete st).
Proof.
  intros Hcol. cbv zeta.
  destruct (wordStart_from_spec lineText colInLine Hcol) as (H1 & H2 & H3).
  split; [exact H1|]. split.
  { rewrite length_firstn, length_skipn. lia. }
  split.
  { apply Forall_lookup_2. intros i x Hx.
    rewrite lookup_take in Hx. destruct (decide _) as [Hi|]; [|discriminate].
    rewrite lookup_drop in Hx.
    destruct (H2 (wordStart_from lineText colInLine + i)) as (c & Hc & Hs); [lia|].
    congruence. }
  split; [exact H3|].
  unfold autocompleteUpdate. rewrite test_triggerRegex. reflexivity.
Qed.

Lemma autocompleteUpdate_trigger_witness :
  11 <= length (chars "  Assets:Ba") /\
  autocompleteUpdate (chars "  Assets:Ba") 40 11 [chars "Assets:Bank"]
    (mkAc [] (-1) 0 false true) =
  showAccountAutocomplete [chars "Assets:Bank"] (chars "Assets:Ba") 42
    (mkAc [] (-1) 0 false true).
Proof.
  split; [simpl; lia|].
  destruct (autocompleteUpdate_trigger (chars "  Assets:Ba") 40 11 [chars "Assets:Bank"]
              (mkAc [] (-1) 0 false true) ltac:(simpl; lia)) as (_ & _ & _ & _ & E).
  rewrite E. reflexivity.
Defined.

(** X4: with a non-empty item list and the selection in [-1, n), a move
    of the account autocomplete selection by one step down or up keeps
    the selection in [0, n) and, from a selected item, moves it
    cyclically: down from the last item gives the first and up from the
    first gives the last; the items, anchor and visibility are kept. *)
Theorem updateAccountAutocompleteSelection_wrap (direction : Z) (st : ac_state) :
  items st <> [] -> (direction = 1 \/ direction = -1)%Z ->
  (-1 <= selectedIndex st < Z.of_nat (length (items st)))%Z ->
  let st' := updateAccountAutocompleteSelection direction st in
  items st' = items st /\ startPos st' = startPos st /\
  active st' = active st /\ hidden st' = hidden st /\
  (0 <= selectedIndex st' < Z.of_nat (length (items st)))%Z /\
  ((0 <= selectedIndex st)%Z ->
   selectedIndex st' = ((selectedIndex st + direction) mod Z.of_nat (length (items st)))%Z).
Proof.
  intros Hne Hd Hsel. cbv zeta. unfold updateAccountAutocompleteSelection.
  destruct (items st) as [|x xs] eqn:Ei; [congruence|]. cbn [items startPos active hidden selectedIndex].
  set (n := Z.of_nat (length (x :: xs))) in *.
  assert (Hn : (1 <= n)%Z) by (subst n; simpl; lia).
  split; [reflexivity|]. split; [reflexivity|]. split; [reflexivity|]. split; [reflexivity|].
  destruct Hd as [-> | ->].
  - destruct (selectedIndex st + 1 <? 0)%Z eqn:E1; [apply Z.ltb_lt in E1; lia|].
    apply Z.ltb_ge in E1.
    destruct (n <=? selectedIndex st + 1)%Z eqn:E2.
    + apply Z.leb_le in E2. split; [lia|]. intros _.
      replace (selectedIndex st + 1)%Z with n by lia. rewrite Z.mod_same; lia.
    + apply Z.leb_gt in E2. split; [lia|]. intros _. rewrite Z.mod_small; lia.
  - destruct (selectedIndex st + -1 <? 0)%Z eqn:E1.
    + apply Z.ltb_lt in E1.
      destruct (n <=? n - 1)%Z eqn:E2; [apply Z.leb_le in E2; lia|].
      split; [lia|]. intros Hs.
      apply (Z.mod_unique _ _ (-1)); [left; lia|lia].
    + apply Z.ltb_ge in E1.
      destruct (n <=? selectedIndex st + -1)%Z eqn:E2; [apply Z.leb_le in E2; lia|].
      split; [lia|]. intros _. rewrite Z.mod_small; lia.
Qed.

Lemma updateAccountAutocompleteSelection_wrap_witness :
  [chars "A:b"; chars "C:d"] <> [] /\ (1 = 1 \/ 1 = -1)%Z /\
  (-1 <= 1 < Z.of_nat (length [chars "A:b"; chars "C:d"]))%Z /\
  selectedIndex (updateAccountAutocompleteSelection 1 (mkAc [chars "A:b"; chars "C:d"] 1 3 true false)) = 0%Z.
Proof.
  split; [discriminate|]. split; [left; reflexivity|]. split; [simpl; lia|].
  destruct (updateAccountAutocompleteSelection_wrap 1 (mkAc [chars "A:b"; chars "C:d"] 1 3 true false)
              ltac:(discriminate) ltac:(left; reflexivity) ltac:(simpl; lia))
    as (_ & _ & _ & _ & _ & E).
  rewrite E by (simpl; lia). reflexivity.
Defined.

Lemma show_items_open known filter_ pos st a rest :
  items (showAccountAutocomplete known filter_ pos st) = a :: rest ->
  showAccountAutocomplete known filter_ pos st = mkAc (a :: rest) 0 pos true false.
Proof.
  unfold showAccountAutocomplete.
  destruct (firstn 10 _) as [|b bs]; simpl; [discriminate|]. intros E. rewrite E. reflexivity.
Qed.

Lemma iter_down its pos k :
  its <> [] ->
  Nat.iter k (updateAccountAutocompleteSelection 1) (mkAc its 0 pos true false) =
  mkAc its (Z.of_nat (k mod length its)) pos true false.
Proof.
  intros Hne. assert (Hn : 0 < length its) by (destruct its; [congruence|simpl; lia]).
  induction k as [|k IH].
  - rewrite Nat.Div0.mod_0_l. reflexivity.
  - simpl Nat.iter. rewrite IH. unfold updateAccountAutocompleteSelection. cbn [items selectedIndex startPos active hidden].
    destruct its as [|x xs]; [congruence|].
    pose proof (Nat.mod_upper_bound k (length (x :: xs)) ltac:(lia)) as Hb.
    set (n := length (x :: xs)) in *.
    destruct (Z.of_nat (k mod n) + 1 <? 0)%Z eqn:E1; [apply Z.ltb_lt in E1; lia|].
    f_equal.
    assert (Hk : S k mod n = (k mod n + 1) mod n).
    { rewrite <- Nat.add_1_r. rewrite Nat.Div0.add_mod_idemp_l; reflexivity. }
    rewrite Hk.
    destruct (decide (k mod n + 1 = n)) as [Heq|Hlt].
    + rewrite (proj2 (Z.leb_le _ _)) by lia. rewrite Heq, Nat.Div0.mod_same. reflexivity.
    + rewrite (proj2 (Z.leb_gt _ _)) by lia. rewrite (Nat.mod_small (k mod n + 1)) by lia. lia.
Qed.

(** X5: once the account dropdown has opened on items [its] anchored at
    [pos], after [k] presses of ArrowDown (each handled by the keymap),
    Enter and Tab both insert item [k mod n] in place of the text from
    the anchor to the cursor, put the cursor right after the inserted
    account and close the dropdown, provided the cursor lies between the
    anchor and the end of the document. *)
Theorem accept_after_arrow_down (known : list (list ascii)) (filter_ : list ascii)
    (pos : nat) (st : ac_state) (d : list ascii) (hd : nat) (k : nat) :
  items (showAccountAutocomplete known filter_ pos st) <> [] ->
  pos <= hd <= length d ->
  let its := items (showAccountAutocomplete known filter_ pos st) in
  let stk := Nat.iter k (updateAccountAutocompleteSelection 1)
               (showAccountAutocomplete known filter_ pos st) in
  let item := nth (k mod length its) its [] in
  let e' := mkEditor (firstn pos d ++ item ++ skipn hd d) (pos + length item)
              (mkAc [] (-1) pos false true) in
  autocompleteKey KArrowDown (mkEditor d hd stk) =
    Some (true, mkEditor d hd (updateAccountAutocompleteSelection 1 stk)) /\
  autocompleteKey KEnter (mkEditor d hd stk) = Some (true, e') /\
  autocompleteKey KTab (mkEditor d hd stk) = Some (true, e').
Proof.
  intros Hne Hhd. cbv zeta.
  destruct (items (showAccountAutocomplete known filter_ pos st)) as [|a rest] eqn:Ei;
    [congruence|].
  rewrite (show_items_open _ _ _ _ _ _ Ei), iter_down by discriminate.
  pose proof (Nat.mod_upper_bound k (length (a :: rest)) ltac:(simpl; lia)) as Hb.
  unfold autocompleteKey, selectAccountAutocompleteItem, dispatch_change.
  cbn [ac items selectedIndex startPos active hidden doc head andb].
  rewrite (proj2 (Z.leb_le 0 _)) by lia.
  rewrite (proj2 (Nat.ltb_lt 0 _)) by (simpl; lia).
  rewrite (proj2 (Z.ltb_ge _ 0)) by lia.
  rewrite (proj2 (Z.leb_gt _ _)) by lia.
  rewrite Z.max_r by lia.
  rewrite (proj2 (Z.ltb_ge _ 0)) by lia.
  rewrite (proj2 (Z.leb_gt _ _)) by lia.
  rewrite Nat2Z.id.
  rewrite (proj2 (Nat.leb_le pos hd)), (proj2 (Nat.leb_le hd (length d))) by lia.
  split; [reflexivity|]. split; reflexivity.
Qed.

Lemma accept_after_arrow_down_witness :
  items (showAccountAutocomplete [chars "Assets:Bank"; chars "Assets:Cash"; chars "Income:Pay"]
           (chars "As") 0 (mkAc [] (-1) 0 false true)) <> [] /\
  0 <= 2 <= length (chars "As") /\
  autocompleteKey KEnter (mkEditor (chars "As") 2
    (Nat.iter 1 (updateAccountAutocompleteSelection 1)
       (showAccountAutocomplete [chars "Assets:Bank"; chars "Assets:Cash"; chars "Income:Pay"]
          (chars "As") 0 (mkAc [] (-1) 0 false true)))) =
  Some (true, mkEditor (chars "Assets:Cash") 11 (mkAc [] (-1) 0 false true)).
Proof.
  split; [vm_compute; discriminate|]. split; [simpl; lia|].
  destruct (accept_after_arrow_down [chars "Assets:Bank"; chars "Assets:Cash"; chars "Income:Pay"]
              (chars "As") 0 (mkAc [] (-1) 0 false true) (chars "As") 2 1
              ltac:(vm_compute; discriminate) ltac:(simpl; lia)) as (_ & E & _).
  rewrite E. reflexivity.
Defined.

End TriggerProofs.

Module QueryInputProofs.
Import JsString QueryInput.
Import SpecHelpers.

Lemma hide_closed st : closed (hideAutocomplete st).
Proof. repeat split. Qed.

Lemma validate_closed st : closed st -> closed (validateQueryInput st).
Proof. unfold validateQueryInput. destruct (trim (q_value st)); auto. Qed.

Lemma keydown_closed k st :
  closed st -> handleQueryInputKeydown k st = (st, enter_runs k st, enter_runs k st).
Proof.
  intros (Hh & _ & _ & _). unfold handleQueryInputKeydown, enter_runs. rewrite Hh. simpl.
  destruct k; try reflexivity. destruct (trim (q_value st)); reflexivity.
Qed.

Lemma step_closed ev st : closed st -> closed (fst (q_step ev st)).
Proof.
  intros Hc. destruct ev as [v c|ready|k| |ready|s|]; simpl.
  - destruct Hc as (? & ? & ? & ?). repeat split; assumption.
  - unfold handleQueryInput. destruct ready; [|exact Hc]. simpl.
    apply validate_closed, hide_closed.
  - rewrite keydown_closed by exact Hc. exact Hc.
  - apply hide_closed.
  - unfold validation_timeout. destruct Hc as (? & ? & ? & ?).
    destruct (q_timer st); [|repeat split; assumption].
    destruct ready; [|repeat split; assumption]. simpl.
    destruct (q_editorContent st); repeat split; assumption.
  - destruct Hc as (? & ? & ? & ?). repeat split; assumption.
  - apply validate_closed, Hc.
Qed.

(** X6: the BQL completion dropdown of the query input never opens.
    [handleQueryInput] calls the [async] [getBqlCompletions] without
    [await], so it reads [completions] on a [Promise] and always takes
    the hiding branch.  From a closed dropdown, after any sequence of
    edits, input and focus events, key presses, timeouts and validations
    it is still hidden, with no item, no selection and no context; and
    then every key press leaves the state as it is, Enter dispatches a
    [runquery] event (and prevents the default) exactly when the trimmed
    query is not empty, and no other key does either. *)
Theorem query_dropdown_never_opens (evs : list qevent) (st : qstate) :
  closed st ->
  let st' := fst (q_run evs st) in
  closed st' /\
  forall k, handleQueryInputKeydown k st' = (st', enter_runs k st', enter_runs k st').
Proof.
  intros Hc. cbv zeta.
  assert (Hrun : closed (fst (q_run evs st))).
  { revert st Hc. induction evs as [|ev evs IH]; intros st Hc; [exact Hc|].
    simpl. destruct (q_step ev st) as [st1 d] eqn:E.
    destruct (q_run evs st1) as [st2 n] eqn:E2. simpl.
    change st2 with (fst (st2, n)). rewrite <- E2. apply IH.
    change st1 with (fst (st1, d)). rewrite <- E. apply step_closed, Hc. }
  split; [exact Hrun|]. intros k. apply keydown_closed, Hrun.
Qed.

Lemma query_dropdown_never_opens_witness :
  closed q_init /\
  handleQueryInputKeydown QEnter
    (fst (q_run [QSetValue (chars "SELECT account") 14; QInput true; QKey QArrowDown;
                 QValidationTimeout true] q_init)) =
  (fst (q_run [QSetValue (chars "SELECT account") 14; QInput true; QKey QArrowDown;
               QValidationTimeout true] q_init), true, true).
Proof.
  split; [repeat split|].
  destruct (query_dropdown_never_opens
              [QSetValue (chars "SELECT account") 14; QInput true; QKey QArrowDown;
               QValidationTimeout true] q_init ltac:(repeat split)) as [_ Hk].
  rewrite Hk. reflexivity.
Defined.

Lemma bg_invalid_ne_valid : bg_invalid <> bg_valid.
Proof. discriminate. Qed.

Lemma bg_invalid_ne_empty : bg_invalid <> [].
Proof. discriminate. Qed.

Lemma validate_bg st : q_bg (validateQueryInput st) = q_bg st \/ q_bg (validateQueryInput st) = [].
Proof. unfold validateQueryInput. destruct (trim (q_value st)); simpl; auto. Qed.

Lemma hide_bg st : q_bg (hideAutocomplete st) = q_bg st.
Proof. reflexivity. Qed.

Lemma step_not_invalid ev st : q_bg st <> bg_invalid -> q_bg (fst (q_step ev st)) <> bg_invalid.
Proof.
  intros H. pose proof bg_invalid_ne_valid. pose proof bg_invalid_ne_empty.
  destruct ev as [v c|ready|k| |ready|src|]; simpl; try exact H.
  - unfold handleQueryInput. destruct ready; [|exact H]. simpl.
    destruct (validate_bg (hideAutocomplete st)) as [E|E]; rewrite E; [exact H|congruence].
  - unfold handleQueryInputKeydown.
    assert (Hsel : forall i, q_bg (selectAutocompleteItem i st) <> bg_invalid).
    { intros i. unfold selectAutocompleteItem.
      destruct (_ || _); [exact H|]. destruct (q_context st) as [[[ts te] v]|]; [|exact H].
      match goal with |- q_bg (validateQueryInput ?s) <> _ =>
        destruct (validate_bg s) as [E|E]; rewrite E; [exact H|congruence] end. }
    assert (Hupd : forall d, q_bg (updateAutocompleteSelection d st) <> bg_invalid).
    { intros d. unfold updateAutocompleteSelection. destruct (q_items st); exact H. }
    destruct (negb (q_hidden st)).
    + destruct k; simpl; auto;
        repeat match goal with |- context [if ?b then _ else _] => destruct b end; simpl; auto.
    + destruct k; simpl; auto. destruct (trim (q_value st)); exact H.
  - unfold validation_timeout. destruct (q_timer st); [|exact H].
    destruct ready; [|exact H]. simpl. destruct (q_editorContent st); simpl; [exact H|congruence].
  - destruct (validate_bg st) as [E|E]; rewrite E; [exact H|congruence].
Qed.

(** X7: live validation of the query input never marks a query as
    invalid.  The debounced callback calls the [async] [executeQuery]
    without [await] and reads [errors] on the [Promise] it gets, so it
    can only paint the valid tint.  After any sequence of events, a
    background that was not the invalid tint still is not; and validating
    a non-blank query, then letting its 150 ms timeout run while the
    engine is ready and the editor content is stored, paints the valid
    tint whatever the query is, while a blank query resets the background
    at once and cancels the pending timeout. *)
Theorem query_validation_never_invalid (evs : list qevent) (st : qstate) :
  (q_bg st <> bg_invalid -> q_bg (fst (q_run evs st)) <> bg_invalid) /\
  (trim (q_value st) <> [] -> q_editorContent st <> [] ->
   q_bg (validation_timeout true (validateQueryInput st)) = bg_valid) /\
  (trim (q_value st) = [] ->
   q_bg (validateQueryInput st) = [] /\ q_timer (validateQueryInput st) = None).
Proof.
  split; [|split].
  - revert st. induction evs as [|ev evs IH]; intros st H; [exact H|].
    simpl. destruct (q_step ev st) as [st1 d] eqn:E.
    destruct (q_run evs st1) as [st2 n] eqn:E2. simpl.
    change st2 with (fst (st2, n)). rewrite <- E2. apply IH.
    change st1 with (fst (st1, d)). rewrite <- E. apply step_not_invalid, H.
  - intros Hq He. unfold validateQueryInput.
    destruct (trim (q_value st)) as [|c q]; [congruence|].
    unfold validation_timeout. simpl.
    destruct (q_editorContent st); [congruence|]. reflexivity.
  - intros Hq. unfold validateQueryInput. rewrite Hq. split; reflexivity.
Qed.

Lemma query_validation_never_invalid_witness :
  q_bg q_init <> bg_invalid /\
  q_bg (fst (q_run [QSetValue (chars "SELECT nonsense FROM") 20; QInput true;
                    QEditorContent (chars "2024-01-01 open Assets:Bank");
                    QValidationTimeout true] q_init)) <> bg_invalid /\
  q_bg (validation_timeout true (validateQueryInput
     (mkQ true (-1) [] None (chars "SELECT nonsense") 15 (chars "2024-01-01 open Assets:Bank") [] None)))
  = bg_valid.
Proof.
  split; [discriminate|]. split.
  - destruct (query_validation_never_invalid
      [QSetValue (chars "SELECT nonsense FROM") 20; QInput true;
       QEditorContent (chars "2024-01-01 open Assets:Bank"); QValidationTimeout true] q_init)
      as [H _]. apply H. discriminate.
  - destruct (query_validation_never_invalid []
      (mkQ true (-1) [] None (chars "SELECT nonsense") 15 (chars "2024-01-01 open Assets:Bank") [] None))
      as [_ [H _]]. apply H; vm_compute; discriminate.
Defined.

End QueryInputProofs.

Module PagerProofs.
Import Query.
Import SpecHelpers.
Open Scope Z_scope.

Lemma pages_prefix {A : Type} (l : list A) (k : nat) :
  concat (map (fun p => firstn 100 (skipn (100 * p) l)) (seq 0 k)) = firstn (100 * k) l.
Proof.
  induction k as [|k IH]; [reflexivity|].
  rewrite seq_S, map_app, concat_app, IH. simpl. rewrite app_nil_r.
  rewrite take_take_drop. f_equal. lia.
Qed.

(** X8: the pages the query paginator can show split the stored rows:
    the rows of pages 0, 1, ..., totalPages - 1, put end to end, are
    exactly the stored rows, in order, each row once. *)
Theorem query_pages_partition {Row : Type} (r : stored Row) :
  let totalPages := math_ceil_div (Z.of_nat (length (rows r))) QUERY_PAGE_SIZE in
  concat (map (fun p => pv_rows (render_view r (Z.of_nat p))) (seq 0 (Z.to_nat totalPages)))
  = rows r.
Proof.
  cbv zeta. rewrite QueryProofs.math_ceil_div_100 by lia.
  set (n := length (rows r)).
  assert (Hk : forall p, In p (seq 0 (Z.to_nat ((Z.of_nat n + 99) / 100))) ->
               pv_rows (render_view r (Z.of_nat p)) = firstn 100 (skipn (100 * p) (rows r))).
  { intros p Hp. apply in_seq in Hp.
    pose proof (Z.div_mod (Z.of_nat n + 99) 100 ltac:(lia)).
    pose proof (Z.mod_pos_bound (Z.of_nat n + 99) 100 ltac:(lia)).
    rewrite QueryProofs.render_view_rows; unfold QUERY_PAGE_SIZE; [|lia|fold n; lia].
    f_equal. f_equal. lia. }
  rewrite (map_ext_in _ _ _ Hk), pages_prefix.
  apply take_ge. fold n.
  pose proof (Z.div_mod (Z.of_nat n + 99) 100 ltac:(lia)).
  pose proof (Z.mod_pos_bound (Z.of_nat n + 99) 100 ltac:(lia)).
  lia.
Qed.

(** X9: on every page [p] that [goToQueryPage] accepts
    ([0 <= p < totalPages]), the "Showing a-b of n rows" line reads
    a = 100p + 1 <= b = min(100p + 100, n) <= n and the page shows
    b - a + 1 rows; the pager is present exactly when there are more than
    100 rows; the previous buttons are disabled exactly on the first
    page and the next buttons exactly on the last; and an enabled
    previous or next button targets a page [goToQueryPage] accepts. *)
Theorem query_page_view {Row : Type} (r : stored Row) (p : Z) :
  let n := Z.of_nat (length (rows r)) in
  let totalPages := math_ceil_div n QUERY_PAGE_SIZE in
  0 <= p < totalPages ->
  let v := render_view r p in
  pv_from v = 100 * p + 1 /\ pv_to v = Z.min (100 * p + 100) n /\
  1 <= pv_from v <= pv_to v /\ pv_to v <= n /\
  Z.of_nat (length (pv_rows v)) = pv_to v - pv_from v + 1 /\
  (pv_pager v = None <-> n <= 100) /\
  (forall lbl tp prevDis nextDis prevT nextT,
     pv_pager v = Some (lbl, tp, prevDis, nextDis, prevT, nextT) ->
     lbl = p + 1 /\ tp = totalPages /\
     (prevDis = true <-> p = 0) /\ (nextDis = true <-> p = totalPages - 1) /\
     (prevDis = false -> 0 <= prevT < totalPages) /\
     (nextDis = false -> 0 <= nextT < totalPages)).
Proof.
  cbv zeta. rewrite QueryProofs.math_ceil_div_100 by lia. intros Hp.
  set (n := length (rows r)) in *.
  pose proof (Z.div_mod (Z.of_nat n + 99) 100 ltac:(lia)).
  pose proof (Z.mod_pos_bound (Z.of_nat n + 99) 100 ltac:(lia)).
  unfold render_view. cbn [pv_from pv_to pv_rows pv_pager].
  rewrite QueryProofs.math_ceil_div_100 by lia. fold n. unfold QUERY_PAGE_SIZE.
  split; [lia|]. split; [f_equal; lia|].
  split; [lia|]. split; [lia|]. split.
  { rewrite QueryProofs.js_slice_in_range by lia.
    rewrite length_firstn, length_skipn. lia. }
  split.
  - destruct (Z.ltb_spec 1 ((Z.of_nat n + 99) / 100)); split; intros E; try discriminate; try lia.
    reflexivity.
  - intros lbl tp prevDis nextDis prevT nextT E.
    destruct (1 <? (Z.of_nat n + 99) / 100); [|discriminate].
    injection E as <- <- <- <- <- <-.
    split; [reflexivity|]. split; [reflexivity|].
    split; [apply Z.eqb_eq|]. split; [rewrite Z.leb_le; split; intros; lia|].
    split.
    + intros Hd. apply Z.eqb_neq in Hd. lia.
    + intros Hd. apply Z.leb_gt in Hd. lia.
Qed.

Lemma query_page_view_witness :
  0 <= 1 < math_ceil_div (Z.of_nat (length (rows (mkStored (seq 0 150) [] EmptyString)))) QUERY_PAGE_SIZE /\
  pv_to (render_view (mkStored (seq 0 150) [] EmptyString) 1) = 150.
Proof.
  split; [split; [lia|reflexivity]|].
  destruct (query_page_view (mkStored (seq 0 150) [] EmptyString) 1
              ltac:(split; [lia|reflexivity])) as (_ & E & _).
  rewrite E. reflexivity.
Defined.

Close Scope Z_scope.
End PagerProofs.

Module BridgeProofs.
Import Wasm WasmRun.
Import SpecHelpers.

Lemma settle_ok {R : Type} (id : nat) (p : promise_state R) (st : wstate R) :
  p <> PPending -> bridge_ok st -> bridge_ok (settle id p st).
Proof.
  intros Hp [H1 H2]. unfold settle.
  destruct (decide (id ∈ pendingRequests st)) as [Hin|]; [|split; assumption].
  split; simpl.
  - intros j. rewrite elem_of_difference, elem_of_singleton.
    destruct (decide (j = id)) as [->|Hne].
    + rewrite lookup_insert_eq. split; [intros [_ []]; reflexivity|intros E; congruence].
    + rewrite lookup_insert_ne by congruence. rewrite H1. tauto.
  - intros j q. destruct (decide (j = id)) as [->|Hne].
    + intros _. apply (H2 id PPending), H1, Hin.
    + rewrite lookup_insert_ne by congruence. apply H2.
Qed.

Lemma step_ok {R : Type} (ev : wevent R) (st : wstate R) :
  bridge_ok st -> bridge_ok (w_step ev st).
Proof.
  intros Hok. pose proof Hok as [H1 H2].
  destruct ev as [|msg| |]; simpl.
  - unfold sendMessage. destruct (worker st); simpl; [|exact Hok].
    split; simpl.
    + intros j. rewrite elem_of_union, elem_of_singleton.
      destruct (decide (j = messageId st)) as [->|Hne].
      * rewrite lookup_insert_eq. tauto.
      * rewrite lookup_insert_ne by congruence. rewrite H1. intuition congruence.
    + intros j q. destruct (decide (j = messageId st)) as [->|Hne]; [lia|].
      rewrite lookup_insert_ne by congruence. intros E. apply H2 in E. lia.
  - destruct msg as [|err|id r|id err]; simpl.
    + split; assumption.
    + split; assumption.
    + apply settle_ok; [discriminate|exact Hok].
    + apply settle_ok; [discriminate|exact Hok].
  - unfold terminateWorker. destruct (worker st); [split; assumption|exact Hok].
  - split; assumption.
Qed.

Lemma run_ok {R : Type} (evs : list (wevent R)) : forall st,
  bridge_ok st -> bridge_ok (w_run evs st).
Proof.
  induction evs as [|ev evs IH]; intros st Hok; [exact Hok|].
  apply IH, step_ok, Hok.
Qed.

Lemma init_ok {R : Type} : bridge_ok (@w_init R).
Proof.
  split; simpl.
  - intros id. rewrite lookup_empty. split; [set_solver|discriminate].
  - intros id p. rewrite lookup_empty. discriminate.
Qed.

(** X10: from the initial state of wasm.js, whatever mix of calls,
    worker messages, terminations and worker creations happens, the
    pending-request table holds exactly the ids of the calls still
    waiting for their reply, every id handed out is below [messageId],
    and so a new [sendMessage] on a live worker posts its request under
    an id that no earlier call has used. *)
Theorem bridge_request_ids_fresh {R : Type} (evs : list (wevent R)) :
  let st := w_run evs w_init in
  bridge_ok st /\
  (worker st = true ->
   snd (sendMessage st) = SendPosted (messageId st) /\
   (messageId st ∉ pendingRequests st) /\ promises st !! messageId st = None).
Proof.
  cbv zeta. pose proof (run_ok evs w_init init_ok) as Hok.
  split; [exact Hok|]. intros Hw.
  destruct Hok as [H1 H2].
  unfold sendMessage. rewrite Hw. simpl. split; [reflexivity|].
  destruct (promises (w_run evs w_init) !! messageId (w_run evs w_init)) as [p|] eqn:E.
  - apply H2 in E. lia.
  - split; [|reflexivity]. rewrite H1, E. discriminate.
Qed.

Lemma step_keeps_settled {R : Type} (ev : wevent R) (st : wstate R) id p :
  bridge_ok st -> promises st !! id = Some p -> p <> PPending ->
  promises (w_step ev st) !! id = Some p.
Proof.
  intros [H1 H2] Hp Hne. destruct ev as [|msg| |]; simpl.
  - unfold sendMessage. destruct (worker st); simpl; [|exact Hp].
    rewrite lookup_insert_ne; [exact Hp|]. apply H2 in Hp. lia.
  - assert (Hs : forall j q, promises (settle j q st) !! id = Some p).
    { intros j q. unfold settle.
      destruct (decide (j ∈ pendingRequests st)) as [Hin|]; [|exact Hp]. simpl.
      rewrite lookup_insert_ne; [exact Hp|].
      intros ->. apply H1 in Hin. congruence. }
    destruct msg as [|err|j r|j err]; simpl; auto.
  - unfold terminateWorker. destruct (worker st); exact Hp.
  - exact Hp.
Qed.

(** X11: a call's promise, once resolved or rejected, keeps that
    outcome whatever happens next: a second reply with the same id, a
    reply for an id that is not pending, new calls and terminations
    change nothing about it; and a worker reply whose id is not pending
    leaves the whole bridge state unchanged. *)
Theorem bridge_settles_once {R : Type} (evs1 evs2 : list (wevent R)) (id : nat)
    (p : promise_state R) :
  let st := w_run evs1 w_init in
  promises st !! id = Some p -> p <> PPending ->
  promises (w_run evs2 st) !! id = Some p /\
  (forall j r err, j ∉ pendingRequests st ->
     handleWorkerMessage (MsgResult j r) st = st /\
     handleWorkerMessage (MsgError j err) st = st).
Proof.
  cbv zeta. intros Hp Hne. split.
  - pose proof (run_ok evs1 w_init init_ok) as Hok.
    revert Hok Hp. generalize (w_run evs1 w_init) as st.
    induction evs2 as [|ev evs2 IH]; intros st Hok Hp; [exact Hp|].
    simpl. apply IH; [apply step_ok, Hok|]. apply step_keeps_settled; assumption.
  - intros j r err Hj. simpl. unfold settle.
    destruct (decide (j ∈ pendingRequests (w_run evs1 w_init))); [contradiction|].
    split; reflexivity.
Qed.

Lemma bridge_settles_once_witness :
  let st := w_run [WCreate; WSend; WMsg (MsgResult 0 7)] (@w_init nat) in
  (promises st !! 0 = Some (PResolved 7) /\ PResolved 7 <> PPending) /\
  promises (w_run [WMsg (MsgError 0 "late"%string); WSend] st) !! 0 = Some (PResolved 7).
Proof.
  cbv zeta. split; [split; [reflexivity|discriminate]|].
  apply (bridge_settles_once [WCreate; WSend; WMsg (MsgResult 0 7)]
           [WMsg (MsgError 0 "late"%string); WSend] 0 (PResolved 7));
    [reflexivity|discriminate].
Defined.

End BridgeProofs.

Module FetchLoopProofs.
Import JsString Fetch FetchCount.
Import SpecHelpers.

Lemma fetch_loop_outcome mr bd to now outcome fuel : forall attempt le,
  attempt <= mr -> fuel = S mr - attempt ->
  let '(evs, r) := fetch_loop mr bd to now outcome fuel attempt le in
  match r with
  | FReturn status a =>
      attempt <= a <= mr /\ fetch_count evs = S a - attempt /\
      exists h, outcome a = FResponse status h
  | FThrow msg =>
      fetch_count evs = S mr - attempt /\
      (outcome mr = FNetworkError msg \/
       (outcome mr = FTimeout /\ msg = timeout_msg to))
  end.
Proof.
  induction fuel as [|fuel IH]; intros attempt le Ha Hf; [lia|].
  cbn [fetch_loop].
  assert (Hcont : forall d le',
    attempt < mr ->
    let '(evs, r) :=
      let '(evs, r) := fetch_loop mr bd to now outcome fuel (S attempt) le' in
      (EvFetch :: EvWait d :: evs, r) in
    match r with
    | FReturn status a =>
        attempt <= a <= mr /\ fetch_count evs = S a - attempt /\
        exists h, outcome a = FResponse status h
    | FThrow msg =>
        fetch_count evs = S mr - attempt /\
        (outcome mr = FNetworkError msg \/ (outcome mr = FTimeout /\ msg = timeout_msg to))
    end).
  { intros d le' Hlt. specialize (IH (S attempt) le' ltac:(lia) ltac:(lia)).
    destruct (fetch_loop mr bd to now outcome fuel (S attempt) le') as [evs r].
    unfold fetch_count in *. simpl.
    destruct r as [status a|msg]; [destruct IH as (H1 & H2 & H3); split; [lia|split; [lia|exact H3]]|].
    destruct IH as [H1 H2]. split; [lia|exact H2]. }
  destruct (outcome attempt) as [status h|msg|] eqn:Eo.
  - destruct (rate_limit_exhausted h && (status =? 403)%Z && (attempt <? mr)) eqn:E1.
    { apply Hcont. apply andb_true_iff in E1 as [_ E1]. apply Nat.ltb_lt, E1. }
    destruct ((400 <=? status)%Z && (status <? 500)%Z && negb (status =? 429)%Z).
    { unfold fetch_count. simpl. split; [lia|]. split; [lia|eauto]. }
    destruct (((500 <=? status)%Z || (status =? 429)%Z) && (attempt <? mr)) eqn:E2.
    { apply Hcont. apply andb_true_iff in E2 as [_ E2]. apply Nat.ltb_lt, E2. }
    unfold fetch_count. simpl. split; [lia|]. split; [lia|eauto].
  - destruct (attempt <? mr) eqn:E.
    { apply Hcont. apply Nat.ltb_lt, E. }
    apply Nat.ltb_ge in E. assert (attempt = mr) as -> by lia.
    replace fuel with 0 by lia. unfold fetch_count. simpl. split; [lia|]. left; exact Eo.
  - destruct (attempt <? mr) eqn:E.
    { apply Hcont. apply Nat.ltb_lt, E. }
    apply Nat.ltb_ge in E. assert (attempt = mr) as -> by lia.
    replace fuel with 0 by lia. unfold fetch_count. simpl. split; [lia|].
    right; split; [exact Eo|reflexivity].
Qed.

(** X12: [fetchWithRetry] sends at most [maxRetries + 1] requests.  It
    either returns the response of some attempt [a <= maxRetries], after
    exactly [a + 1] requests, or, after all [maxRetries + 1] requests,
    throws the error of the last attempt: its network error, or
    "Request timed out after <timeout>ms" when it timed out; the errors
    of earlier attempts are never the one thrown. *)
Theorem fetchWithRetry_attempts (maxRetries : nat) (baseDelay : Z) (timeout : N)
    (now : nat -> Z) (outcome : nat -> fetch_outcome) :
  let '(evs, r) := fetchWithRetry maxRetries baseDelay timeout now outcome in
  match r with
  | FReturn status a =>
      a <= maxRetries /\ fetch_count evs = S a /\ exists h, outcome a = FResponse status h
  | FThrow msg =>
      fetch_count evs = S maxRetries /\
      (outcome maxRetries = FNetworkError msg \/
       (outcome maxRetries = FTimeout /\
        msg = ("Request timed out after " +:+ pretty timeout +:+ "ms")%string))
  end.
Proof.
  unfold fetchWithRetry.
  pose proof (fetch_loop_outcome maxRetries baseDelay timeout now outcome (S maxRetries) 0 None
                ltac:(lia) ltac:(lia)) as H.
  destruct (fetch_loop _ _ _ _ _ _ _ _) as [evs r].
  destruct r as [status a|msg].
  - destruct H as (H1 & H2 & H3). split; [lia|]. split; [lia|exact H3].
  - destruct H as [H1 H2]. split; [lia|exact H2].
Qed.

End FetchLoopProofs.

Module StatsProofs.
Import JsString Regex Stats RegexProofs.
Import SpecHelpers.

(** Where [scan] found each match: the text before it (reversed) and
    the text after it, with the matcher succeeding there. *)
Lemma scan_at r fuel : forall b s,
  Forall (fun mt => exists b' rest, length b' = mt.1 /\
            rev b ++ s = rev b' ++ mt.2 ++ rest /\
            match_at r b' (mt.2 ++ rest) = Some rest) (scan r fuel b s).
Proof.
  induction fuel as [|f IH]; intros b s; simpl; [constructor|].
  destruct (match_at r b s) as [s'|] eqn:E.
  - pose proof E as E'. apply match_at_sound in E' as (w0 & Hs & _).
    assert (Hw : firstn (length s - length s') s = w0).
    { subst s. rewrite length_app, Nat.add_sub, firstn_app, Nat.sub_diag.
      simpl. rewrite app_nil_r. apply firstn_all. }
    rewrite Hw. constructor.
    + exists b, s'. split; [reflexivity|]. subst s. split; [reflexivity|exact E].
    + destruct w0 as [|c0 w0'].
      * destruct s as [|c s2]; [constructor|].
        eapply List.Forall_impl; [|apply IH]. simpl.
        intros mt (b' & rest & H1 & H2 & H3). exists b', rest.
        split; [exact H1|]. split; [|exact H3]. rewrite <- H2, <- app_assoc. reflexivity.
      * eapply List.Forall_impl; [|apply IH].
        intros mt (b' & rest & H1 & H2 & H3). exists b', rest.
        split; [exact H1|]. split; [|exact H3]. rewrite <- H2. subst s.
        rewrite rev_app_distr, rev_involutive, <- app_assoc. reflexivity.
  - destruct s as [|c s2]; [constructor|].
    eapply List.Forall_impl; [|apply IH]. simpl.
    intros mt (b' & rest & H1 & H2 & H3). exists b', rest.
    split; [exact H1|]. split; [|exact H3]. rewrite <- H2, <- app_assoc. reflexivity.
Qed.

Lemma in_lang_seq_inv r1 r2 w :
  in_lang (RSeq r1 r2) w -> exists w1 w2, w = w1 ++ w2 /\ in_lang r1 w1 /\ in_lang r2 w2.
Proof. intros H. inversion H; subst. eauto. Qed.

Lemma in_lang_class_inv p w : in_lang (RClass p) w -> exists c, w = [c] /\ p c = true.
Proof. intros H. inversion H; subst. eauto. Qed.

Lemma in_lang_alt_inv r1 r2 w : in_lang (RAlt r1 r2) w -> in_lang r1 w \/ in_lang r2 w.
Proof. intros H. inversion H; subst; auto. Qed.

Lemma in_lang_linebegin_inv w : in_lang RLineBegin w -> w = [].
Proof. intros H. inversion H; reflexivity. Qed.

Lemma is_char_eq x c : is_char x c = true -> c = x.
Proof. unfold is_char. apply Ascii.eqb_eq. Qed.

Lemma txn_line_begin b s x :
  match_at txnRegex b s = Some x ->
  b = [] \/ exists c b0, b = c :: b0 /\ line_terminator c = true.
Proof.
  unfold match_at, txnRegex. cbn [m].
  destruct b as [|c b0]; [auto|]. destruct (line_terminator c) eqn:E; [|discriminate].
  intros _. right. eauto.
Qed.

Lemma txn_in_lang_shape w : in_lang txnRegex w -> txn_line_shape w.
Proof.
  unfold txnRegex, lit, digit. intros Hl.
  repeat match goal with
  | H : in_lang (RSeq _ _) _ |- _ => apply in_lang_seq_inv in H as (? & ? & -> & ? & ?)
  | H : in_lang (RClass _) _ |- _ => apply in_lang_class_inv in H as (? & -> & ?)
  | H : in_lang RLineBegin _ |- _ => apply in_lang_linebegin_inv in H as ->
  end.
  match goal with H : in_lang (RPlus _) ?ws |- _ =>
    apply AccountProofs.in_lang_plus_class in H as [Hne Hws] end.
  match goal with H : in_lang (RAlt _ _) ?mk |- _ => rename H into Hmark end.
  repeat match goal with
  | H : is_char _ _ = true |- _ => apply is_char_eq in H; subst
  end.
  match goal with
  | |- txn_line_shape ([] ++ ([?y1] ++ [?y2] ++ [?y3] ++ [?y4]) ++ _ ++ ([?m1] ++ [?m2]) ++ _ ++
                       ([?d1] ++ [?d2]) ++ ?ws ++ ?mk ++ [?c]) =>
      exists [y1; y2; y3; y4; "-"; m1; m2; "-"; d1; d2]%char, ws, mk, c;
      split; [reflexivity|];
      split; [exists y1, y2, y3, y4, m1, m2, d1, d2; split; [reflexivity|repeat constructor; assumption]|]
  end.
  split; [exact Hne|]. split; [exact Hws|]. split; [|assumption].
  apply in_lang_alt_inv in Hmark as [H|H]; [|apply in_lang_alt_inv in H as [H|H]].
  - left. apply in_lang_class_inv in H as (c & -> & Hc). apply is_char_eq in Hc. subst. reflexivity.
  - right; left. apply in_lang_class_inv in H as (c & -> & Hc). apply is_char_eq in Hc. subst. reflexivity.
  - right; right.
    repeat match goal with
    | H : in_lang (RSeq _ _) _ |- _ => apply in_lang_seq_inv in H as (? & ? & -> & ? & ?)
    | H : in_lang (RClass _) _ |- _ => apply in_lang_class_inv in H as (? & -> & ?)
    | H : is_char _ _ = true |- _ => apply is_char_eq in H; subst
    end.
    reflexivity.
Qed.

(** X14: every line [countTransactions] counts starts at the beginning
    of the source or right after a line break, and its text there is a
    date [dddd-dd-dd], one or more [\s] characters (line breaks
    included, so a date line followed by a line starting with [* ] or
    [! ] counts), the mark [*], [!] or [txn], and one [\s] character;
    so an entry whose date is followed by a payee string alone is never
    counted. *)
Theorem countTransactions_counted_lines (source : list ascii) (i : nat) (w : list ascii) :
  In (i, w) (matches txnRegex source) ->
  (i = 0 \/ exists c, source !! (i - 1) = Some c /\ line_terminator c = true) /\
  firstn (length w) (skipn i source) = w /\
  txn_line_shape w.
Proof.
  intros Hin.
  pose proof (scan_at txnRegex (S (length source)) [] source) as Hat.
  destruct (scan_sound txnRegex (S (length source)) [] source) as [_ Hl].
  fold (matches txnRegex source) in Hat, Hl.
  rewrite List.Forall_forall in Hat, Hl.
  destruct (Hat _ Hin) as (b' & rest & Hlen & Hsrc & Hm). simpl in Hlen, Hsrc, Hm.
  specialize (Hl _ Hin). simpl in Hl.
  split; [|split].
  - apply txn_line_begin in Hm as [->|(c & b0 & -> & Hc)].
    + left. simpl in Hlen. lia.
    + right. exists c. split; [|exact Hc].
      rewrite Hsrc. simpl. rewrite <- app_assoc. simpl.
      apply list_lookup_middle. simpl in Hlen. rewrite length_rev. lia.
  - rewrite Hsrc, <- Hlen, skipn_app, length_rev, Nat.sub_diag, skipn_all2 by (rewrite length_rev; lia).
    simpl. apply take_app_length.
  - apply txn_in_lang_shape, Hl.
Qed.

Lemma countTransactions_counted_lines_witness :
  In (0, chars "2024-01-01 * ") (matches txnRegex (chars "2024-01-01 * x")) /\
  firstn (length (chars "2024-01-01 * ")) (skipn 0 (chars "2024-01-01 * x")) = chars "2024-01-01 * ".
Proof.
  split; [vm_compute; left; reflexivity|].
  apply (countTransactions_counted_lines (chars "2024-01-01 * x") 0 (chars "2024-01-01 * ")).
  vm_compute. left. reflexivity.
Defined.

End StatsProofs.
